(** * Alien Invaders (terminal): a model of [alien_invaders_terminal.py]

    The game is one Python module: three sprite classes ([Laser], [Player],
    [Alien]), the [GameState] container and the [play] loop.  Python
    integers are unbounded, so coordinates, score and level are [Z]; the
    two clock comparisons and the two calls into [random] of the loop are
    inputs of an iteration ([Event]); [alien_speed] computes on IEEE
    binary64 numbers, which are [PrimFloat.float] here. *)

From Stdlib Require Import ZArith Lia Bool String Ascii.
From Stdlib Require Import Floats.
From stdpp Require Import base list sorting.

Set Warnings "-inexact-float".
Set Default Proof Using "Type".

Local Open Scope Z_scope.

(** ** Sprites *)

(** [class Laser(Sprite)]: the character is always the vertical bar and
    [dir] is -1 (up) or 1 (down). *)
Module Laser.
Record t : Type := mk { x : Z; y : Z; char : string; dir : Z }.

Definition init (x0 y0 direction : Z) : t := mk x0 y0 "|"%string direction.

(** [self.y += self.dir] *)
Definition update (l : t) : t := mk (x l) (y l + dir l) (char l) (dir l).
End Laser.

(** [class Player(Sprite)] *)
Module Player.
Record t : Type := mk { x : Z; y : Z; char : string; max_x : Z }.

Definition init (x0 y0 max_x0 : Z) : t := mk x0 y0 "A"%string max_x0.

(** [self.x = max(1, min(self.max_x - 2, self.x + dx))] *)
Definition move (p : t) (dx : Z) : t :=
  mk (Z.max 1 (Z.min (max_x p - 2) (x p + dx))) (y p) (char p) (max_x p).
End Player.

(** [class Alien(Sprite)] *)
Module Alien.
Definition FRAMES : list string := ["/"; "V"; "\"; "Λ"]%string.

Record t : Type := mk { x : Z; y : Z; char : string; frame : Z }.

(** [FRAMES[i]] for an index inside the list. *)
Definition frame_char (i : Z) : string := nth (Z.to_nat i) FRAMES EmptyString.

Definition init (x0 y0 : Z) : t := mk x0 y0 (frame_char 0) 0.

(** [self.frame = (self.frame + 1) % len(FRAMES)], then the character of
    that frame. *)
Definition animate (a : t) : t :=
  let f := (frame a + 1) mod Z.of_nat (length FRAMES) in
  mk (x a) (y a) (frame_char f) f.

Definition set_x (a : t) (v : Z) : t := mk v (y a) (char a) (frame a).
Definition set_y (a : t) (v : Z) : t := mk (x a) v (char a) (frame a).
End Alien.

(** ** Game state container *)

(** [class GameState], without the curses window [win]: [height] and
    [width] are what [win.getmaxyx()] returned. *)
Record GameState : Type := mkState {
  height : Z;
  width : Z;
  player : Player.t;
  aliens : list Alien.t;
  player_lasers : list Laser.t;
  alien_lasers : list Laser.t;
  alien_dir : Z;
  tick : Z;
  score : Z;
  level : Z;
  game_over : bool
}.

Definition set_player (s : GameState) (v : Player.t) : GameState :=
  mkState (height s) (width s) v (aliens s) (player_lasers s) (alien_lasers s)
          (alien_dir s) (tick s) (score s) (level s) (game_over s).
Definition set_aliens (s : GameState) (v : list Alien.t) : GameState :=
  mkState (height s) (width s) (player s) v (player_lasers s) (alien_lasers s)
          (alien_dir s) (tick s) (score s) (level s) (game_over s).
Definition set_player_lasers (s : GameState) (v : list Laser.t) : GameState :=
  mkState (height s) (width s) (player s) (aliens s) v (alien_lasers s)
          (alien_dir s) (tick s) (score s) (level s) (game_over s).
Definition set_alien_lasers (s : GameState) (v : list Laser.t) : GameState :=
  mkState (height s) (width s) (player s) (aliens s) (player_lasers s) v
          (alien_dir s) (tick s) (score s) (level s) (game_over s).
Definition set_alien_dir (s : GameState) (v : Z) : GameState :=
  mkState (height s) (width s) (player s) (aliens s) (player_lasers s)
          (alien_lasers s) v (tick s) (score s) (level s) (game_over s).
Definition set_score (s : GameState) (v : Z) : GameState :=
  mkState (height s) (width s) (player s) (aliens s) (player_lasers s)
          (alien_lasers s) (alien_dir s) (tick s) v (level s) (game_over s).
Definition set_level (s : GameState) (v : Z) : GameState :=
  mkState (height s) (width s) (player s) (aliens s) (player_lasers s)
          (alien_lasers s) (alien_dir s) (tick s) (score s) v (game_over s).
Definition set_game_over (s : GameState) (v : bool) : GameState :=
  mkState (height s) (width s) (player s) (aliens s) (player_lasers s)
          (alien_lasers s) (alien_dir s) (tick s) (score s) (level s) v.

(** [range(n)] *)
Definition range (n : nat) : list Z := Z.of_nat <$> seq 0 n.

(** [GameState.init_aliens]: two nested [for] loops, each body appending one
    fresh [Alien] to [self.aliens]. *)
Definition init_aliens (s : GameState) : GameState :=
  let rows := 5%nat in
  let cols := 11%nat in
  let x_margin := (width s - Z.of_nat cols * 4) / 2 in
  foldl (fun s_r r =>
    foldl (fun s_c c =>
      let x := x_margin + c * 4 in
      let y := 2 + r * 2 in
      set_aliens s_c (aliens s_c ++ [Alien.init x y]))
    s_r (range cols))
  s (range rows).

(** [GameState.__init__] for a window of [h] rows and [w] columns. *)
Definition GameState_init (h w : Z) : GameState :=
  init_aliens
    (mkState h w (Player.init (w / 2) (h - 2) w) [] [] [] 1 0 0 1 false).

(** *** [alien_speed]: binary64 arithmetic *)

(** Python's [max(a, b)] on two arguments: [b] replaces [a] only when
    [b > a]. *)
Definition py_max (a b : float) : float :=
  if PrimFloat.ltb a b then b else a.

(** The least magnitude of an [int] that has no finite binary64 image:
    halfway between the largest finite number and [2^1024]. *)
Definition float_int_limit : Z := 2 ^ 1024 - 2 ^ 970.

(** Conversion of a Python [int] to [float], as done when an [int] meets a
    [float] in [*]: the nearest binary64 number, ties to even, and
    [OverflowError] ([None]) when that would not be finite. *)
Definition float_of_int (n : Z) : option float :=
  if Z.abs n <? float_int_limit
  then Some (SF2Prim (binary_normalize 53 1024 n 0 false))
  else None.

(** [return max(0.05, 0.3 - (self.level - 1) * 0.03)] *)
Definition alien_speed (s : GameState) : option float :=
  match float_of_int (level s - 1) with
  | Some l1 => Some (py_max 0.05 (0.3 - l1 * 0.03))%float
  | None => None
  end.

(** ** One iteration of the loop of [play] *)

(** What an iteration reads from outside the state: the key returned by the
    non-blocking [stdscr.getch()], the outcome of the two clock tests
    [now - last_move > state.alien_speed()] and [now - last_anim > 0.3],
    the outcome of [random.random() < 0.02] and the index drawn by
    [random.choice]. *)
Record Event : Type := mkEvent {
  key : Z;
  march_due : bool;
  anim_due : bool;
  fire_roll : bool;
  fire_pick : nat
}.

(** Key codes: [ord] of the four characters, the two curses arrow keys, and
    -1 for "no key". *)
Definition ord_q : Z := 113.
Definition ord_Q : Z := 81.
Definition ord_space : Z := 32.
Definition ord_z : Z := 122.
Definition KEY_LEFT : Z := 260.
Definition KEY_RIGHT : Z := 261.
Definition NO_KEY : Z := -1.

(** The [# Input] section.  [None] is the [break] of the quit keys. *)
Definition handle_input (k : Z) (s : GameState) : option GameState :=
  if (k =? ord_q) || (k =? ord_Q) then None
  else if k =? KEY_LEFT then Some (set_player s (Player.move (player s) (-1)))
  else if k =? KEY_RIGHT then Some (set_player s (Player.move (player s) 1))
  else if (k =? ord_space) || (k =? ord_z) then
    if Z.of_nat (length (player_lasers s)) <? 3
    then Some (set_player_lasers s
                 (player_lasers s ++
                  [Laser.init (Player.x (player s)) (Player.y (player s) - 1) (-1)]))
    else Some s
  else Some s.

(** First loop of the march: each alien is moved and tested in turn;
    [edge_hit] is the flag carried through the loop. *)
Fixpoint march_loop (adir w : Z) (als : list Alien.t) (edge_hit : bool)
  : list Alien.t * bool :=
  match als with
  | [] => ([], edge_hit)
  | alien :: rest =>
      let alien' := Alien.set_x alien (Alien.x alien + adir) in
      let edge_hit' :=
        if (Alien.x alien' <=? 1) || (Alien.x alien' >=? w - 2)
        then true else edge_hit in
      let '(rest', e) := march_loop adir w rest edge_hit' in
      (alien' :: rest', e)
  end.

(** Second loop of the march, run on an edge hit: each alien goes down one
    row and is tested against the player's row; [over] is
    [state.game_over]. *)
Fixpoint descend_loop (player_y : Z) (als : list Alien.t) (over : bool)
  : list Alien.t * bool :=
  match als with
  | [] => ([], over)
  | alien :: rest =>
      let alien' := Alien.set_y alien (Alien.y alien + 1) in
      let over' := if Alien.y alien' >=? player_y then true else over in
      let '(rest', o) := descend_loop player_y rest over' in
      (alien' :: rest', o)
  end.

(** Body of [if now - last_move > state.alien_speed():]. *)
Definition advance_aliens (s : GameState) : GameState :=
  let '(als, edge_hit) :=
    march_loop (alien_dir s) (width s) (aliens s) false in
  let s1 := set_aliens s als in
  if edge_hit then
    let s2 := set_alien_dir s1 (alien_dir s1 * -1) in
    let '(als', over) :=
      descend_loop (Player.y (player s2)) (aliens s2) (game_over s2) in
    set_game_over (set_aliens s2 als') over
  else s1.

(** Body of [if now - last_anim > 0.3:]. *)
Definition animate_aliens (s : GameState) : GameState :=
  set_aliens s (Alien.animate <$> aliens s).

(** [# Aliens fire randomly]: with a non-empty alien list and a successful
    roll, the chosen alien drops a laser from the row below it.
    [random.choice] returns an element of the list, so the drawn index is
    taken inside it. *)
Definition aliens_fire (ev : Event) (s : GameState) : GameState :=
  if bool_decide (aliens s = []) then s
  else if fire_roll ev then
    match aliens s !! (fire_pick ev mod length (aliens s))%nat with
    | Some shooter =>
        set_alien_lasers s
          (alien_lasers s ++
           [Laser.init (Alien.x shooter) (Alien.y shooter + 1) 1])
    | None => s
    end
  else s.

(** [# Update lasers], player side.  The loop walks a copy of the list,
    updates each laser in place and removes that very object from the live
    list when it is at row 1 or above.  Every element of the list is an
    object of its own (each comes from one [Laser(...)] call at its
    [append]), so what is left is the updated lasers that were not removed,
    in order. *)
Fixpoint update_player_lasers (snapshot : list Laser.t) : list Laser.t :=
  match snapshot with
  | [] => []
  | laser :: rest =>
      let laser' := Laser.update laser in
      if Laser.y laser' <=? 1 then update_player_lasers rest
      else laser' :: update_player_lasers rest
  end.

(** [# Update lasers], alien side: removal at row [height - 1] or below. *)
Fixpoint update_alien_lasers (h : Z) (snapshot : list Laser.t) : list Laser.t :=
  match snapshot with
  | [] => []
  | laser :: rest =>
      let laser' := Laser.update laser in
      if Laser.y laser' >=? h - 1 then update_alien_lasers h rest
      else laser' :: update_alien_lasers h rest
  end.

Definition update_lasers (s : GameState) : GameState :=
  let s1 := set_player_lasers s (update_player_lasers (player_lasers s)) in
  set_alien_lasers s1 (update_alien_lasers (height s1) (alien_lasers s1)).

(** [laser.x == alien.x and laser.y == alien.y] *)
Definition hit (laser : Laser.t) (alien : Alien.t) : bool :=
  (Laser.x laser =? Alien.x alien) && (Laser.y laser =? Alien.y alien).

(** Inner loop of [# Player lasers hit aliens] for one laser, over a copy of
    the alien list: at the first alien on the laser's cell that alien is
    removed from the live list and the loop is left by [break].  The result
    is the live list after the removal, or [None] when the loop ran to its
    end. *)
Fixpoint scan_aliens (laser : Laser.t) (snapshot : list Alien.t)
  : option (list Alien.t) :=
  match snapshot with
  | [] => None
  | alien :: rest =>
      if hit laser alien then Some rest
      else cons alien <$> scan_aliens laser rest
  end.

(** Outer loop over a copy of the player's lasers; the triple is the live
    laser list, the live alien list and the score. *)
Fixpoint collide_loop (snapshot : list Laser.t) (als : list Alien.t) (sc : Z)
  : list Laser.t * list Alien.t * Z :=
  match snapshot with
  | [] => ([], als, sc)
  | laser :: rest =>
      match scan_aliens laser als with
      | Some als' => collide_loop rest als' (sc + 10)
      | None =>
          let '(ls, als', sc') := collide_loop rest als sc in
          (laser :: ls, als', sc')
      end
  end.

Definition resolve_collisions (s : GameState) : GameState :=
  let '(ls, als, sc) := collide_loop (player_lasers s) (aliens s) (score s) in
  set_score (set_aliens (set_player_lasers s ls) als) sc.

(** [# Alien lasers hit player]: the loop only ever writes [True] to
    [state.game_over]. *)
Fixpoint player_hit_loop (p : Player.t) (snapshot : list Laser.t) (over : bool)
  : bool :=
  match snapshot with
  | [] => over
  | laser :: rest =>
      player_hit_loop p rest
        (if (Laser.x laser =? Player.x p) && (Laser.y laser =? Player.y p)
         then true else over)
  end.

Definition alien_lasers_hit (s : GameState) : GameState :=
  set_game_over s (player_hit_loop (player s) (alien_lasers s) (game_over s)).

(** [# Check level cleared] *)
Definition level_cleared (s : GameState) : GameState :=
  if bool_decide (aliens s = []) then
    let s1 := set_level s (level s + 1) in
    let s2 := init_aliens s1 in
    let s3 := set_player_lasers s2 [] in
    set_alien_lasers s3 []
  else s.

(** The sections of the loop body after the input section, in the order of
    the source.  The drawing section reads the state and writes to the
    curses window only. *)
Definition sections (ev : Event) : list (GameState -> GameState) :=
  [ (fun s => if march_due ev then advance_aliens s else s);
    (fun s => if anim_due ev then animate_aliens s else s);
    aliens_fire ev;
    update_lasers;
    resolve_collisions;
    alien_lasers_hit;
    level_cleared ].

Definition update (ev : Event) (s : GameState) : GameState :=
  foldl (fun st f => f st) s (sections ev).

(** ** The loop and [play] *)

(** Calls on the curses window that the model records.  [DrawFrame s] stands
    for the drawing section of an iteration ([erase] to [refresh], and the
    [sleep]) run on state [s].

    The calls are recorded as made and as returning.  In the source the
    sprites are drawn inside a [try], but the three [addstr] calls are
    not: the score text at row 0, column 2, the level text at row 0,
    column [width - 15], and the end-of-game message at row [height // 2],
    column [(width - 33) // 2].  curses refuses a text that starts outside
    the window (or that runs into its last cell) by raising
    [curses.error], which would end [play] there.  The model has no value
    for that: it describes the runs in which these calls are accepted,
    which is the case on a window of at least 3 rows and 33 columns (15
    columns for the frames alone).  Statements about what is drawn, and
    about calls following one another, carry that as a hypothesis. *)
Inductive ScreenCall : Type :=
  | CursSet (visibility : Z)
  | NoDelay (flag : bool)
  | SetTimeout (delay : Z)
  | DrawFrame (s : GameState)
  | AddStr (row col : Z) (text : string)
  | GetCh.

(** How the [while] loop was left: by [break], by its condition, or not yet
    (the list of events is used up while the game still runs). *)
Inductive LoopExit : Type := QuitKey | GameOverFlag | StillRunning.

(** The [while] loop, one event per iteration: how it was left, the state
    then, and the frames drawn.  Each drawing section returns (see
    [ScreenCall]: on a window narrower than 15 columns the real one raises
    at the level text). *)
Fixpoint main_loop (evs : list Event) (s : GameState)
  : LoopExit * GameState * list ScreenCall :=
  match evs with
  | [] => (if game_over s then GameOverFlag else StillRunning, s, [])
  | ev :: rest =>
      if game_over s then (GameOverFlag, s, [])
      else
        match handle_input (key ev) s with
        | None => (QuitKey, s, [])
        | Some s1 =>
            let s2 := update ev s1 in
            let '(e, s3, calls) := main_loop rest s2 in
            (e, s3, DrawFrame s2 :: calls)
        end
  end.

(** [len] of a Python [str] kept as UTF-8 bytes: the number of code points,
    that is of bytes that are not continuation bytes. *)
Definition py_len (text : string) : Z :=
  Z.of_nat (length (filter (fun b => ¬ (128 <= b < 192)%N)
                           (N_of_ascii <$> list_ascii_of_string text))).

Definition msg : string := "GAME OVER ‒ Press any key to exit".

(** [# Game over screen]: the three statements after the loop, each
    returning (see [ScreenCall]: on a window narrower than the message the
    real [addstr] raises and the [getch] after it is not reached). *)
Definition game_over_screen (s : GameState) : list ScreenCall :=
  [ NoDelay false;
    AddStr (height s / 2) ((width s - py_len msg) / 2) msg;
    GetCh ].

(** [play(stdscr)] on a window of [h] by [w] cells, fed the events of its
    iterations.  While the loop has not been left nothing after it runs.
    As for [main_loop], every recorded call returns (see [ScreenCall]). *)
Definition play (h w : Z) (evs : list Event)
  : LoopExit * GameState * list ScreenCall :=
  let '(e, s, frames) := main_loop evs (GameState_init h w) in
  let after :=
    match e with
    | StillRunning => []
    | _ => game_over_screen s
    end in
  (e, s, [CursSet 0; NoDelay true; SetTimeout 0] ++ frames ++ after).

(** ** States passed through during a session *)

(** The state after each of a list of sections. *)
Fixpoint run_sections (fs : list (GameState -> GameState)) (s : GameState)
  : list GameState :=
  match fs with
  | [] => []
  | f :: fs' => f s :: run_sections fs' (f s)
  end.

(** Every state the loop passes through, at the granularity of its
    sections: the state at the head of each iteration, after the input
    section, and after each later section. *)
Fixpoint session_states (evs : list Event) (s : GameState) : list GameState :=
  s ::
  match evs with
  | [] => []
  | ev :: rest =>
      if game_over s then []
      else
        match handle_input (key ev) s with
        | None => []
        | Some s1 =>
            s1 :: run_sections (sections ev) s1 ++
            session_states rest (update ev s1)
        end
  end.

(** ** The specification's vocabulary *)

(** [clamp(v, lo, hi)]: [v] brought back to the nearer bound when it lies
    outside [lo..hi]. *)
Definition clamp (v lo hi : Z) : Z :=
  if v <? lo then lo else if hi <? v then hi else v.

(** The edge condition of the march for a column [x] on a field [w] wide. *)
Definition at_edge (w x : Z) : bool := (x <=? 1) || (x >=? w - 2).

(** The rows of the top and bottom border lines of a window [h] high, as
    [stdscr.border()] draws them. *)
Definition top_border : Z := 0.
Definition bottom_border (h : Z) : Z := h - 1.

(** One alien after the horizontal step, and after the descent. *)
Definition shifted (d : Z) (a : Alien.t) : Alien.t :=
  Alien.set_x a (Alien.x a + d).
Definition lowered (a : Alien.t) : Alien.t :=
  Alien.set_y a (Alien.y a + 1).

(** [advanceProjectiles] as the specification words it: after the step a
    player laser is dropped when its row has reached the top border's, an
    alien laser when its row has reached or passed the bottom border's. *)
Definition advance_projectiles_as_specified (s : GameState) : GameState :=
  set_alien_lasers
    (set_player_lasers s
       (filter (fun l => top_border < Laser.y l)
               (Laser.update <$> player_lasers s)))
    (filter (fun l => Laser.y l < bottom_border (height s))
            (Laser.update <$> alien_lasers s)).

(** The wave as a grid: for each of 5 rows, from top to bottom, 11 fresh
    aliens from left to right, [xm] being the column of the leftmost. *)
Definition grid (xm : Z) (rows cols : list Z) : list Alien.t :=
  concat ((fun r => (fun c => Alien.init (xm + c * 4) (2 + r * 2)) <$> cols)
          <$> rows).
Definition wave (w : Z) : list Alien.t :=
  grid ((w - 44) / 2) (range 5) (range 11).

(** The part of the state that no section after the input section touches,
    and the player lasers, which they can only take away. *)
Definition section_frame (f : GameState -> GameState) : Prop :=
  forall s : GameState,
    player (f s) = player s /\
    height (f s) = height s /\
    width (f s) = width s /\
    (length (player_lasers (f s)) <= length (player_lasers s))%nat.

(** ** Shapes the loop keeps *)

(** A laser as [Laser(...)] builds it for a direction [d]. *)
Definition laser_ok (d : Z) (l : Laser.t) : Prop :=
  Laser.dir l = d /\ Laser.char l = "|"%string.

(** An alien showing frame [f]. *)
Definition alien_ok (f : Z) (a : Alien.t) : Prop :=
  Alien.frame a = f /\ Alien.char a = Alien.frame_char f.

(** What [GameState.__init__] sets up on a window of [h] by [w] cells and
    no statement of the loop undoes. *)
Definition well_formed (h w : Z) (s : GameState) : Prop :=
  height s = h /\ width s = w /\ tick s = 0 /\
  Player.max_x (player s) = w /\ Player.char (player s) = "A"%string /\
  (alien_dir s = 1 \/ alien_dir s = -1) /\
  Forall (laser_ok (-1)) (player_lasers s) /\
  Forall (laser_ok 1) (alien_lasers s) /\
  (exists f : Z, 0 <= f < 4 /\ Forall (alien_ok f) (aliens s)) /\
  (length (aliens s) <= 55)%nat /\
  0 <= score s /\ score s mod 10 = 0 /\ 1 <= level s.

(** The aliens are inside the side borders, and not on the margin they are
    marching towards. *)
Definition aliens_in_field (w : Z) (s : GameState) : Prop :=
  width s = w /\
  (alien_dir s = 1 \/ alien_dir s = -1) /\
  Forall (fun a => 1 <= Alien.x a <= w - 2) (aliens s) /\
  (alien_dir s = 1 -> Forall (fun a => Alien.x a <= w - 3) (aliens s)) /\
  (alien_dir s = -1 -> Forall (fun a => 2 <= Alien.x a) (aliens s)).

(** The aliens are at row 2 or below and, while the game is on, above the
    player's row [h - 2]. *)
Definition aliens_above_player (h : Z) (s : GameState) : Prop :=
  Player.y (player s) = h - 2 /\
  Forall (fun a => 2 <= Alien.y a) (aliens s) /\
  (game_over s = false -> Forall (fun a => Alien.y a < h - 2) (aliens s)).

(** The player is inside the side borders. *)
Definition player_in_field (s : GameState) : Prop :=
  Player.max_x (player s) = width s /\
  1 <= Player.x (player s) <= width s - 2.

(** [b] is no earlier than [a] in a game: a raised game-over flag stays
    raised, score and level have not gone down. *)
Definition no_earlier (a b : GameState) : Prop :=
  (game_over a = true -> game_over b = true) /\
  score a <= score b /\
  level a <= level b.

(** A property that the input section and every later section of an
    iteration carry from the state they start in to the one they leave. *)
Definition kept (Inv : GameState -> Prop) : Prop :=
  (forall k s s', Inv s -> handle_input k s = Some s' -> Inv s') /\
  (forall s, Inv s -> Inv (advance_aliens s)) /\
  (forall s, Inv s -> Inv (animate_aliens s)) /\
  (forall ev s, Inv s -> Inv (aliens_fire ev s)) /\
  (forall s, Inv s -> Inv (update_lasers s)) /\
  (forall s, Inv s -> Inv (resolve_collisions s)) /\
  (forall s, Inv s -> Inv (alien_lasers_hit s)) /\
  (forall s, Inv s -> Inv (level_cleared s)).

(** The state invariants of a session on a window of [h] by [w] cells. *)
Definition field_invariant (h w : Z) (s : GameState) : Prop :=
  well_formed h w s /\ aliens_in_field w s /\
  aliens_above_player h s /\ player_in_field s.

(** The lasers are inside the side borders; the player's are between row 2
    and the row above the player, the aliens' at row 3 or below. *)
Definition lasers_in_field (h w : Z) (s : GameState) : Prop :=
  Forall (fun l => 1 <= Laser.x l <= w - 2 /\ 2 <= Laser.y l <= h - 3)
         (player_lasers s) /\
  Forall (fun l => 1 <= Laser.x l <= w - 2 /\ 3 <= Laser.y l)
         (alien_lasers s).

(** Every sprite of the state is on a cell strictly inside the border of
    the window, so that [Sprite.draw] writes it without a curses error. *)
Definition inside_window (h w : Z) (s : GameState) : Prop :=
  (1 <= Player.x (player s) <= w - 2 /\ Player.y (player s) = h - 2) /\
  Forall (fun a => 1 <= Alien.x a <= w - 2 /\ 2 <= Alien.y a <= h - 2)
         (aliens s) /\
  Forall (fun l => 1 <= Laser.x l <= w - 2 /\ 2 <= Laser.y l <= h - 3)
         (player_lasers s) /\
  Forall (fun l => 1 <= Laser.x l <= w - 2 /\ 3 <= Laser.y l <= h - 2)
         (alien_lasers s).

(** What a recorded call writes lies inside the window: the sprites of a
    frame, and the whole of a text. *)
Definition drawn_inside (h w : Z) (call : ScreenCall) : Prop :=
  match call with
  | DrawFrame s => inside_window h w s
  | AddStr row col text => 0 <= row < h /\ 0 <= col /\ col + py_len text <= w
  | _ => True
  end.

(** The cell an alien is on, and the aliens being on cells of their own. *)
Definition cell (a : Alien.t) : Z * Z := (Alien.x a, Alien.y a).
Definition distinct_cells (s : GameState) : Prop :=
  NoDup (cell <$> aliens s).

(** The score counts 10 for every alien shot so far: the 55 of each wave
    cleared and those missing from the wave on the field. *)
Definition score_accounts (s : GameState) : Prop :=
  score s =
  10 * (55 * (level s - 1) + (55 - Z.of_nat (length (aliens s)))).

(** ** Player movement *)

Lemma move_x_clamp (p : Player.t) (dx : Z) :
  1 <= Player.max_x p - 2 ->
  Player.x (Player.move p dx) = clamp (Player.x p + dx) 1 (Player.max_x p - 2).
Proof.
  intros Hw. unfold Player.move, clamp. simpl.
  destruct (Z.ltb_spec (Player.x p + dx) 1);
    destruct (Z.ltb_spec (Player.max_x p - 2) (Player.x p + dx)); lia.
Qed.

Lemma move_frame (p : Player.t) (dx : Z) :
  Player.y (Player.move p dx) = Player.y p /\
  Player.char (Player.move p dx) = Player.char p /\
  Player.max_x (Player.move p dx) = Player.max_x p.
Proof. repeat split. Qed.

Lemma move_in_range (p : Player.t) (dx : Z) :
  1 <= Player.max_x p - 2 ->
  1 <= Player.x (Player.move p dx) <= Player.max_x p - 2.
Proof. intros Hw. unfold Player.move. simpl. lia. Qed.

Lemma moves_invariant (dxs : list Z) : forall p : Player.t,
  1 <= Player.x p <= Player.max_x p - 2 ->
  let p' := foldl Player.move p dxs in
  1 <= Player.x p' <= Player.max_x p - 2 /\
  Player.y p' = Player.y p /\
  Player.char p' = Player.char p /\
  Player.max_x p' = Player.max_x p.
Proof.
  induction dxs as [|dx dxs IH]; intros p Hp; simpl.
  - auto.
  - assert (Hw : 1 <= Player.max_x p - 2) by lia.
    pose proof (move_in_range p dx Hw) as Hx.
    destruct (IH (Player.move p dx) Hx) as (Hx' & Hy' & Hc' & Hm').
    destruct (move_frame p dx) as (Hy & Hc & Hm).
    rewrite Hm in Hx', Hm'. rewrite Hy in Hy'. rewrite Hc in Hc'. auto.
Qed.

(** C6. [Player.move(dx)] puts [clamp(x + dx, 1, max_x - 2)] in [x] and
    leaves [y], [char] and [max_x] as they were; so from a start position
    inside [1 .. max_x - 2] (where [max_x] is the field width) any sequence
    of moves keeps [x] inside that interval. *)
Theorem C6_player_move_clamp (p : Player.t) (dxs : list Z) :
  1 <= Player.x p <= Player.max_x p - 2 ->
  (forall dx,
     Player.move p dx =
     Player.mk (clamp (Player.x p + dx) 1 (Player.max_x p - 2))
               (Player.y p) (Player.char p) (Player.max_x p)) /\
  (let p' := foldl Player.move p dxs in
   1 <= Player.x p' <= Player.max_x p - 2 /\
   Player.y p' = Player.y p /\
   Player.char p' = Player.char p /\
   Player.max_x p' = Player.max_x p).
Proof.
  intros Hp. split.
  - intros dx. rewrite <- move_x_clamp by lia. reflexivity.
  - apply moves_invariant. exact Hp.
Qed.

Lemma C6_player_move_clamp_witness :
  let p := Player.init 40 22 80 in
  let dxs := [-1; 1; 100; -200; 1] in
  (forall dx,
     Player.move p dx =
     Player.mk (clamp (Player.x p + dx) 1 (Player.max_x p - 2))
               (Player.y p) (Player.char p) (Player.max_x p)) /\
  (let p' := foldl Player.move p dxs in
   1 <= Player.x p' <= Player.max_x p - 2 /\
   Player.y p' = Player.y p /\
   Player.char p' = Player.char p /\
   Player.max_x p' = Player.max_x p).
Proof.
  apply (C6_player_move_clamp (Player.init 40 22 80) [-1; 1; 100; -200; 1]).
  simpl. lia.
Defined.

(** ** The march of the aliens *)

Lemma march_loop_spec (d w : Z) (als : list Alien.t) : forall e : bool,
  march_loop d w als e =
  (shifted d <$> als,
   e || existsb (fun a => at_edge w (Alien.x a)) (shifted d <$> als)).
Proof.
  induction als as [|a als IH]; intros e; simpl.
  - now rewrite orb_false_r.
  - rewrite IH. fold (shifted d a). unfold at_edge at 2.
    unfold fmap. f_equal.
    destruct ((Alien.x a + d <=? 1) || (Alien.x a + d >=? w - 2)); simpl;
      [now rewrite orb_true_r | reflexivity].
Qed.

Lemma descend_loop_spec (py : Z) (als : list Alien.t) : forall o : bool,
  descend_loop py als o =
  (lowered <$> als,
   o || existsb (fun a => Alien.y a >=? py) (lowered <$> als)).
Proof.
  induction als as [|a als IH]; intros o; simpl.
  - now rewrite orb_false_r.
  - rewrite IH. fold (lowered a). unfold fmap. f_equal.
    destruct (Alien.y a + 1 >=? py); simpl;
      [now rewrite orb_true_r | reflexivity].
Qed.

Lemma advance_aliens_spec (s : GameState) :
  let moved := shifted (alien_dir s) <$> aliens s in
  let edge_hit := existsb (fun a => at_edge (width s) (Alien.x a)) moved in
  advance_aliens s =
  if edge_hit then
    mkState (height s) (width s) (player s) (lowered <$> moved)
            (player_lasers s) (alien_lasers s) (- alien_dir s) (tick s)
            (score s) (level s)
            (game_over s ||
             existsb (fun a => Alien.y a >=? Player.y (player s))
                     (lowered <$> moved))
  else set_aliens s moved.
Proof.
  intros moved edge_hit. unfold advance_aliens.
  rewrite march_loop_spec. simpl. fold moved. fold edge_hit.
  destruct edge_hit.
  - rewrite descend_loop_spec. unfold set_game_over, set_aliens. simpl.
    f_equal. lia.
  - reflexivity.
Qed.

(** C1. When the march is due, every alien's [x] gets [alien_dir] added; the
    edge condition ([x <= 1] or [x >= width - 2]) is then a property of the
    whole moved wave (some alien meets it), not of the first offender.  On
    an edge hit the direction is negated once, every alien goes down one
    row, and the game is over when it already was or some alien is then at
    or below the player's row; with no edge hit only the [x] coordinates
    change.  A lone alien at [x = 1] marching right on a field more than 4
    wide ends at [x = 2] with no edge hit; a lone alien that lands on
    [x >= width - 2] marching right turns the direction to -1 and goes down
    one row in that same step. *)
Theorem C1_advance_aliens :
  (forall s : GameState,
     let moved := shifted (alien_dir s) <$> aliens s in
     let edge_hit := existsb (fun a => at_edge (width s) (Alien.x a)) moved in
     advance_aliens s =
     if edge_hit then
       mkState (height s) (width s) (player s) (lowered <$> moved)
               (player_lasers s) (alien_lasers s) (- alien_dir s) (tick s)
               (score s) (level s)
               (game_over s ||
                existsb (fun a => Alien.y a >=? Player.y (player s))
                        (lowered <$> moved))
     else set_aliens s moved) /\
  (forall (s : GameState) (a : Alien.t),
     aliens s = [a] -> Alien.x a = 1 -> alien_dir s = 1 -> 4 < width s ->
     advance_aliens s = set_aliens s [Alien.set_x a 2]) /\
  (forall (s : GameState) (a : Alien.t),
     aliens s = [a] -> alien_dir s = 1 -> Alien.x a + 1 >= width s - 2 ->
     alien_dir (advance_aliens s) = -1 /\
     aliens (advance_aliens s) =
     [Alien.mk (Alien.x a + 1) (Alien.y a + 1) (Alien.char a) (Alien.frame a)]).
Proof.
  split; [exact advance_aliens_spec|]. split.
  - intros s a Ha Hx Hd Hw. rewrite advance_aliens_spec.
    rewrite Ha, Hd. simpl. unfold at_edge, shifted. simpl. rewrite Hx.
    replace (1 + 1 <=? 1) with false by reflexivity.
    replace (1 + 1 >=? width s - 2) with false by lia.
    reflexivity.
  - intros s a Ha Hd Hx. rewrite advance_aliens_spec.
    rewrite Ha, Hd. simpl. unfold at_edge, shifted. simpl.
    replace (Alien.x a + 1 >=? width s - 2) with true by lia.
    rewrite orb_true_r. simpl. split; reflexivity.
Qed.

Lemma C1_advance_aliens_witness :
  (let s := mkState 24 80 (Player.init 40 22 80) [Alien.init 1 2]
                    [] [] 1 0 0 1 false in
   advance_aliens s = set_aliens s [Alien.set_x (Alien.init 1 2) 2]) /\
  (let s := mkState 24 80 (Player.init 40 22 80) [Alien.init 77 2]
                    [] [] 1 0 0 1 false in
   alien_dir (advance_aliens s) = -1 /\
   aliens (advance_aliens s) = [Alien.mk 78 3 "/" 0]).
Proof.
  split.
  - apply (proj1 (proj2 C1_advance_aliens)); simpl; [reflexivity .. | lia].
  - apply (proj2 (proj2 C1_advance_aliens)
             (mkState 24 80 (Player.init 40 22 80) [Alien.init 77 2]
                      [] [] 1 0 0 1 false) (Alien.init 77 2));
      simpl; [reflexivity | reflexivity | lia].
Defined.

(** ** Alien lasers against the player *)

Lemma player_hit_loop_spec (p : Player.t) (ls : list Laser.t) : forall o : bool,
  player_hit_loop p ls o =
  o || existsb (fun l => (Laser.x l =? Player.x p) && (Laser.y l =? Player.y p)) ls.
Proof.
  induction ls as [|l ls IH]; intros o; simpl.
  - now rewrite orb_false_r.
  - rewrite IH.
    destruct ((Laser.x l =? Player.x p) && (Laser.y l =? Player.y p)); simpl;
      [now rewrite orb_true_r | reflexivity].
Qed.

Lemma existsb_on_player (p : Player.t) (ls : list Laser.t) :
  existsb (fun l => (Laser.x l =? Player.x p) && (Laser.y l =? Player.y p)) ls = true <->
  exists l, l ∈ ls /\ Laser.x l = Player.x p /\ Laser.y l = Player.y p.
Proof.
  rewrite existsb_exists. split.
  - intros (l & Hin & Hl). exists l. apply andb_true_iff in Hl.
    rewrite list_elem_of_In. split; [exact Hin | lia].
  - intros (l & Hin & Hx & Hy). exists l. rewrite <- list_elem_of_In.
    split; [exact Hin | apply andb_true_iff; lia].
Qed.

(** C8. The pass of the alien lasers over the player leaves the game over
    exactly when it already was or some alien laser lies on the player's
    cell; it writes nothing but that flag (no laser is removed, no other
    field changes), any number of lasers on the cell gives the same [true],
    and a second pass changes nothing more. *)
Theorem C8_alien_lasers_hit (s : GameState) :
  alien_lasers_hit s =
    set_game_over s
      (game_over s ||
       existsb (fun l => (Laser.x l =? Player.x (player s)) &&
                         (Laser.y l =? Player.y (player s)))
               (alien_lasers s)) /\
  (game_over (alien_lasers_hit s) = true <->
   game_over s = true \/
   exists l, l ∈ alien_lasers s /\
             Laser.x l = Player.x (player s) /\
             Laser.y l = Player.y (player s)) /\
  alien_lasers (alien_lasers_hit s) = alien_lasers s /\
  (forall (l : Laser.t) (n : nat),
     Laser.x l = Player.x (player s) -> Laser.y l = Player.y (player s) ->
     alien_lasers_hit (set_alien_lasers s (replicate (S n) l)) =
     set_game_over (set_alien_lasers s (replicate (S n) l)) true) /\
  alien_lasers_hit (alien_lasers_hit s) = alien_lasers_hit s.
Proof.
  assert (Heq : forall t, alien_lasers_hit t =
    set_game_over t
      (game_over t ||
       existsb (fun l => (Laser.x l =? Player.x (player t)) &&
                         (Laser.y l =? Player.y (player t)))
               (alien_lasers t))).
  { intros t. unfold alien_lasers_hit. now rewrite player_hit_loop_spec. }
  split; [apply Heq|]. split; [|split; [|split]].
  - rewrite Heq. simpl. rewrite orb_true_iff, existsb_on_player. reflexivity.
  - reflexivity.
  - intros l n Hx Hy. rewrite !Heq. simpl. unfold set_game_over. simpl.
    rewrite Hx, Hy, !Z.eqb_refl. simpl. now rewrite orb_true_r.
  - rewrite (Heq (alien_lasers_hit s)), Heq. unfold set_game_over. simpl.
    f_equal.
    destruct (game_over s); simpl; [reflexivity|].
    now destruct (existsb _ _).
Qed.

Lemma C8_alien_lasers_hit_witness :
  let s := mkState 24 80 (Player.init 40 22 80) [] []
                   [Laser.init 40 22 1] 1 0 0 1 false in
  alien_lasers_hit (set_alien_lasers s (replicate 3 (Laser.init 40 22 1))) =
  set_game_over (set_alien_lasers s (replicate 3 (Laser.init 40 22 1))) true.
Proof.
  apply (proj1 (proj2 (proj2 (proj2 (C8_alien_lasers_hit
           (mkState 24 80 (Player.init 40 22 80) [] []
                    [Laser.init 40 22 1] 1 0 0 1 false)))))
           (Laser.init 40 22 1) 2%nat); reflexivity.
Defined.

(** ** Laser motion *)

Lemma update_player_lasers_filter (ls : list Laser.t) :
  update_player_lasers ls =
  filter (fun l => 1 < Laser.y l) (Laser.update <$> ls).
Proof.
  induction ls as [|l ls IH]; [reflexivity|].
  rewrite fmap_cons, filter_cons. simpl. rewrite IH.
  destruct (Z.leb_spec (Laser.y l + Laser.dir l) 1); case_decide;
    simpl in *; first [reflexivity | lia].
Qed.

Lemma update_alien_lasers_filter (h : Z) (ls : list Laser.t) :
  update_alien_lasers h ls =
  filter (fun l => Laser.y l < h - 1) (Laser.update <$> ls).
Proof.
  induction ls as [|l ls IH]; [reflexivity|].
  rewrite fmap_cons, filter_cons. simpl. rewrite IH.
  destruct (Z.geb_spec (Laser.y l + Laser.dir l) (h - 1)); case_decide;
    simpl in *; first [reflexivity | lia].
Qed.

(** C9, as the code has it.  Every laser takes one step along its direction
    (only [y] changes, by [dir]); then exactly the player lasers with
    [y <= 1], the row just below the top border, are gone, and exactly the
    alien lasers with [y >= height - 1], the bottom border's row or beyond,
    are gone.  The others stay, in order, and nothing else in the state
    changes. *)
Theorem C9_update_lasers (s : GameState) :
  update_lasers s =
    set_alien_lasers
      (set_player_lasers s
         (filter (fun l => top_border + 1 < Laser.y l)
                 (Laser.update <$> player_lasers s)))
      (filter (fun l => Laser.y l < bottom_border (height s))
              (Laser.update <$> alien_lasers s)) /\
  (forall l : Laser.t,
     Laser.update l =
     Laser.mk (Laser.x l) (Laser.y l + Laser.dir l) (Laser.char l) (Laser.dir l)).
Proof.
  split; [|reflexivity].
  unfold update_lasers. simpl.
  now rewrite update_player_lasers_filter, update_alien_lasers_filter.
Qed.

(** C9 as worded fails on a player laser stepping from row 2 to row 1: the
    code removes it, although row 1 is not the top border's row 0. *)
Lemma C9_counterexample :
  let s := mkState 24 80 (Player.init 40 22 80) []
                   [Laser.init 40 2 (-1)] [] 1 0 0 1 false in
  player_lasers (update_lasers s) = [] /\
  player_lasers (advance_projectiles_as_specified s) = [Laser.init 40 1 (-1)].
Proof. split; reflexivity. Qed.

(** ** Player lasers against the aliens *)


Lemma scan_aliens_Some (laser : Laser.t) (als als' : list Alien.t) :
  scan_aliens laser als = Some als' ->
  length als = S (length als') /\ sublist als' als.
Proof.
  revert als'. induction als as [|a als IH]; intros als' H; [discriminate|].
  simpl in H. destruct (hit laser a).
  - injection H as <-. split; [reflexivity | now apply sublist_cons].
  - destruct (scan_aliens laser als) as [r|]; [|discriminate].
    injection H as <-. destruct (IH r eq_refl) as [Hl Hs].
    split; [simpl; now rewrite Hl | now apply sublist_skip].
Qed.

Lemma collide_loop_account (ls : list Laser.t) : forall (als : list Alien.t) (sc : Z),
  exists k : nat,
    length ls = (length (collide_loop ls als sc).1.1 + k)%nat /\
    length als = (length (collide_loop ls als sc).1.2 + k)%nat /\
    (collide_loop ls als sc).2 = sc + 10 * Z.of_nat k /\
    sublist (collide_loop ls als sc).1.1 ls /\
    sublist (collide_loop ls als sc).1.2 als.
Proof.
  induction ls as [|l ls IH]; intros als sc; simpl.
  - exists 0%nat. repeat split; try lia; reflexivity.
  - destruct (scan_aliens l als) as [als'|] eqn:Hscan.
    + destruct (scan_aliens_Some _ _ _ Hscan) as [Hlen Hsub].
      destruct (IH als' (sc + 10)) as (k & H1 & H2 & H3 & H4 & H5).
      exists (S k). repeat split; try lia.
      * now apply sublist_cons.
      * now transitivity als'.
    + destruct (IH als sc) as (k & H1 & H2 & H3 & H4 & H5).
      destruct (collide_loop ls als sc) as [[ls' als'] sc']. simpl in *.
      exists k. repeat split; try lia; try assumption.
      now apply sublist_skip.
Qed.



(** ** The wave spawner *)

Lemma spawn_row (mk_alien : Z -> Alien.t) (cols : list Z) : forall s : GameState,
  foldl (fun s_c c => set_aliens s_c (aliens s_c ++ [mk_alien c])) s cols =
  set_aliens s (aliens s ++ (mk_alien <$> cols)).
Proof.
  induction cols as [|c cols IH]; intros s; simpl.
  - rewrite app_nil_r. now destruct s.
  - rewrite IH. unfold set_aliens. simpl. now rewrite <- app_assoc.
Qed.

Lemma spawn_rows (xm : Z) (cols rows : list Z) : forall s : GameState,
  foldl (fun s_r r =>
    foldl (fun s_c c =>
      set_aliens s_c (aliens s_c ++ [Alien.init (xm + c * 4) (2 + r * 2)]))
    s_r cols) s rows =
  set_aliens s (aliens s ++ grid xm rows cols).
Proof.
  unfold grid. induction rows as [|r rows IH]; intros s; simpl.
  - rewrite app_nil_r. now destruct s.
  - rewrite (spawn_row (fun c => Alien.init (xm + c * 4) (2 + r * 2))).
    rewrite IH. unfold set_aliens. simpl. now rewrite <- app_assoc.
Qed.

Lemma init_aliens_wave (s : GameState) :
  init_aliens s = set_aliens s (aliens s ++ wave (width s)).
Proof. unfold init_aliens, wave. apply spawn_rows. Qed.

Lemma level_cleared_empty (s : GameState) :
  aliens s = [] ->
  level_cleared s =
  mkState (height s) (width s) (player s) (wave (width s)) [] []
          (alien_dir s) (tick s) (score s) (level s + 1) (game_over s).
Proof.
  intros Ha. unfold level_cleared.
  rewrite bool_decide_eq_true_2 by exact Ha.
  cbv zeta. rewrite init_aliens_wave.
  unfold set_alien_lasers, set_player_lasers, set_aliens, set_level.
  cbn [height width player aliens player_lasers alien_lasers alien_dir tick
       score level game_over].
  now rewrite Ha.
Qed.

Lemma level_cleared_nonempty (s : GameState) :
  aliens s <> [] -> level_cleared s = s.
Proof.
  intros Ha. unfold level_cleared. now rewrite bool_decide_eq_false_2.
Qed.

Lemma wave_80_lookup (r c : nat) :
  (r < 5)%nat -> (c < 11)%nat ->
  wave 80 !! (r * 11 + c)%nat =
  Some (Alien.mk (18 + 4 * Z.of_nat c) (top_border + 2 + 2 * Z.of_nat r)
                 "/" 0).
Proof.
  intros Hr Hc.
  do 5 (destruct r as [|r];
        [do 11 (destruct c as [|c]; [vm_compute; reflexivity|]);
         exfalso; clear -Hc; lia|]).
  lia.
Qed.

(** C3. On a field 80 wide the spawner, run on an empty alien list, leaves
    exactly 55 aliens: row [r] (of 5) and column [c] (of 11) holds a fresh
    alien at [x = 18 + 4 c], [y = 2 + 2 r], two rows below the top border
    for the first row.  The eleven 4-column cells span columns 18 to 61,
    which leaves 18 columns on either side.  The aliens appended depend on
    the width only, so the wave built by [GameState.__init__] and the one
    built after a wave clear are the same list. *)
Theorem C3_wave_spawn (s : GameState) :
  width s = 80 -> aliens s = [] ->
  let spawned := aliens (init_aliens s) in
  length spawned = 55%nat /\
  (forall r c : nat, (r < 5)%nat -> (c < 11)%nat ->
     spawned !! (r * 11 + c)%nat =
     Some (Alien.mk (18 + 4 * Z.of_nat c) (top_border + 2 + 2 * Z.of_nat r)
                    "/" 0)) /\
  (exists leftmost rightmost : Alien.t,
     spawned !! 0%nat = Some leftmost /\ spawned !! 10%nat = Some rightmost /\
     Alien.x leftmost = 80 - (Alien.x rightmost + 4)) /\
  (forall s1 s2 : GameState,
     width s1 = width s2 ->
     exists appended : list Alien.t,
       aliens (init_aliens s1) = aliens s1 ++ appended /\
       aliens (init_aliens s2) = aliens s2 ++ appended) /\
  (forall h : Z, aliens (GameState_init h 80) = spawned) /\
  aliens (level_cleared s) = spawned.
Proof.
  intros Hw Ha spawned.
  assert (Hs : spawned = wave 80).
  { subst spawned. rewrite init_aliens_wave. simpl. now rewrite Ha, Hw. }
  rewrite Hs. split; [reflexivity|]. split; [exact wave_80_lookup|].
  split; [|split; [|split]].
  - eexists _, _. split; [reflexivity|]. split; reflexivity.
  - intros s1 s2 H12. exists (wave (width s1)).
    rewrite !init_aliens_wave. simpl. now rewrite H12.
  - intros h. unfold GameState_init. rewrite init_aliens_wave. reflexivity.
  - rewrite level_cleared_empty by exact Ha. cbn [aliens]. now rewrite Hw.
Qed.

Lemma C3_wave_spawn_witness :
  let s := mkState 24 80 (Player.init 37 22 80) []
                   [Laser.init 37 9 (-1)] [Laser.init 20 15 1]
                   (-1) 0 550 2 false in
  let spawned := aliens (init_aliens s) in
  length spawned = 55%nat /\
  (forall r c : nat, (r < 5)%nat -> (c < 11)%nat ->
     spawned !! (r * 11 + c)%nat =
     Some (Alien.mk (18 + 4 * Z.of_nat c) (top_border + 2 + 2 * Z.of_nat r)
                    "/" 0)) /\
  (exists leftmost rightmost : Alien.t,
     spawned !! 0%nat = Some leftmost /\ spawned !! 10%nat = Some rightmost /\
     Alien.x leftmost = 80 - (Alien.x rightmost + 4)) /\
  (forall s1 s2 : GameState,
     width s1 = width s2 ->
     exists appended : list Alien.t,
       aliens (init_aliens s1) = aliens s1 ++ appended /\
       aliens (init_aliens s2) = aliens s2 ++ appended) /\
  (forall h : Z, aliens (GameState_init h 80) = spawned) /\
  aliens (level_cleared s) = spawned.
Proof.
  apply (C3_wave_spawn
           (mkState 24 80 (Player.init 37 22 80) []
                    [Laser.init 37 9 (-1)] [Laser.init 20 15 1]
                    (-1) 0 550 2 false)); reflexivity.
Defined.

(** ** What each section of an iteration leaves alone *)

Lemma advance_aliens_frame : section_frame advance_aliens.
Proof.
  intros s. rewrite advance_aliens_spec.
  destruct (existsb _ _); simpl; auto.
Qed.

Lemma animate_aliens_frame : section_frame animate_aliens.
Proof. intros s. simpl. auto. Qed.

Lemma aliens_fire_frame (ev : Event) : section_frame (aliens_fire ev).
Proof.
  intros s. unfold aliens_fire.
  destruct (bool_decide (aliens s = [])); [auto|].
  destruct (fire_roll ev); [|auto].
  destruct (aliens s !! _); simpl; auto.
Qed.

Lemma update_lasers_frame : section_frame update_lasers.
Proof.
  intros s. unfold update_lasers. simpl.
  rewrite update_player_lasers_filter.
  repeat split.
  etransitivity; [apply length_filter|]. now rewrite length_fmap.
Qed.

Lemma resolve_collisions_frame : section_frame resolve_collisions.
Proof.
  intros s. unfold resolve_collisions.
  destruct (collide_loop_account (player_lasers s) (aliens s) (score s))
    as (k & H1 & _).
  destruct (collide_loop (player_lasers s) (aliens s) (score s))
    as [[ls als] sc]. simpl in *.
  repeat split. lia.
Qed.

Lemma alien_lasers_hit_frame : section_frame alien_lasers_hit.
Proof. intros s. simpl. auto. Qed.

Lemma level_cleared_frame : section_frame level_cleared.
Proof.
  intros s. destruct (aliens s) as [|a als] eqn:Ha.
  - rewrite level_cleared_empty by exact Ha. simpl. repeat split. lia.
  - rewrite level_cleared_nonempty by (rewrite Ha; discriminate). auto.
Qed.

Lemma sections_frame (ev : Event) : Forall section_frame (sections ev).
Proof.
  unfold sections. repeat apply Forall_cons_2; try apply Forall_nil_2.
  - destruct (march_due ev); [apply advance_aliens_frame|].
    intros s. auto.
  - destruct (anim_due ev); [apply animate_aliens_frame|].
    intros s. auto.
  - apply aliens_fire_frame.
  - apply update_lasers_frame.
  - apply resolve_collisions_frame.
  - apply alien_lasers_hit_frame.
  - apply level_cleared_frame.
Qed.

(** The input section, when it does not leave the loop: the player keeps
    its row and the field its size; the player lasers grow by at most one,
    and only while fewer than three are live. *)
Lemma handle_input_frame (k : Z) (s s' : GameState) :
  handle_input k s = Some s' ->
  Player.y (player s') = Player.y (player s) /\
  height s' = height s /\
  width s' = width s /\
  game_over s' = game_over s /\
  ((length (player_lasers s) <= 3)%nat -> (length (player_lasers s') <= 3)%nat).
Proof.
  unfold handle_input. intros H.
  destruct ((k =? ord_q) || (k =? ord_Q)); [discriminate|].
  destruct (k =? KEY_LEFT); [injection H as <-; simpl; auto|].
  destruct (k =? KEY_RIGHT); [injection H as <-; simpl; auto|].
  destruct ((k =? ord_space) || (k =? ord_z)); [|injection H as <-; auto].
  destruct (Z.ltb_spec (Z.of_nat (length (player_lasers s))) 3);
    injection H as <-; simpl; repeat split; auto.
  intros _. rewrite length_app. simpl. lia.
Qed.

(** ** Invariants of a session *)

Lemma session_states_cons (ev : Event) (rest : list Event) (s : GameState) :
  session_states (ev :: rest) s =
  s :: (if game_over s then []
        else match handle_input (key ev) s with
             | None => []
             | Some s1 =>
                 s1 :: run_sections (sections ev) s1 ++
                 session_states rest (update ev s1)
             end).
Proof. reflexivity. Qed.

Lemma main_loop_cons (ev : Event) (rest : list Event) (s : GameState) :
  main_loop (ev :: rest) s =
  if game_over s then (GameOverFlag, s, [])
  else match handle_input (key ev) s with
       | None => (QuitKey, s, [])
       | Some s1 =>
           let '(e, s3, calls) := main_loop rest (update ev s1) in
           (e, s3, DrawFrame (update ev s1) :: calls)
       end.
Proof. reflexivity. Qed.

Section Invariant.
Variable Inv : GameState -> Prop.
Hypothesis Inv_input :
  forall k s s', Inv s -> handle_input k s = Some s' -> Inv s'.
Hypothesis Inv_section :
  forall f, section_frame f -> forall s, Inv s -> Inv (f s).

Lemma run_sections_inv (fs : list (GameState -> GameState)) :
  Forall section_frame fs ->
  forall s, Inv s ->
    Forall Inv (run_sections fs s) /\ Inv (foldl (fun st f => f st) s fs).
Proof using Inv_section.
  induction 1 as [|f fs Hf _ IH]; intros s Hs; simpl.
  - split; [constructor | exact Hs].
  - destruct (IH (f s) (Inv_section f Hf s Hs)) as [H1 H2].
    split; [constructor; auto | exact H2].
Qed.

Lemma session_states_inv (evs : list Event) :
  forall s, Inv s -> Forall Inv (session_states evs s).
Proof using Inv_input Inv_section.
  induction evs as [|ev rest IH]; intros s Hs.
  - repeat constructor. exact Hs.
  - rewrite session_states_cons. constructor; [exact Hs|].
    destruct (game_over s); [constructor|].
    destruct (handle_input (key ev) s) as [s1|] eqn:Hin; [|constructor].
    pose proof (Inv_input _ _ _ Hs Hin) as Hs1.
    destruct (run_sections_inv (sections ev) (sections_frame ev) s1 Hs1)
      as [H1 H2].
    constructor; [exact Hs1|].
    apply Forall_app. split; [exact H1|]. apply IH. exact H2.
Qed.
End Invariant.

(** The state in which the loop is left, or stands when the events are used
    up, is one of the states of the session. *)
Lemma main_loop_in_session (evs : list Event) : forall s : GameState,
  (main_loop evs s).1.2 ∈ session_states evs s.
Proof.
  induction evs as [|ev rest IH]; intros s.
  - apply list_elem_of_here.
  - rewrite session_states_cons, main_loop_cons.
    destruct (game_over s); [apply list_elem_of_here|].
    destruct (handle_input (key ev) s) as [s1|]; [|apply list_elem_of_here].
    specialize (IH (update ev s1)).
    destruct (main_loop rest (update ev s1)) as [[e s3] calls].
    do 2 apply list_elem_of_further. apply elem_of_app. right. exact IH.
Qed.

(** ** The cap on player lasers *)

(** C7. Through a whole session, at the head of every iteration and after
    each of its sections, at most 3 player lasers are live.  A fire key
    ([space] or [z]) appends one laser going up from the cell above the
    player when fewer than 3 are live and does nothing otherwise; no other
    key changes the list, and no later section of an iteration makes it
    longer. *)
Theorem C7_player_laser_cap :
  (forall (h w : Z) (evs : list Event),
     Forall (fun s => (length (player_lasers s) <= 3)%nat)
            (session_states evs (GameState_init h w))) /\
  (forall (h w : Z) (evs : list Event),
     (length (player_lasers (play h w evs).1.2) <= 3)%nat) /\
  (forall (k : Z) (s : GameState),
     k = ord_space \/ k = ord_z ->
     handle_input k s =
     Some (if Z.of_nat (length (player_lasers s)) <? 3
           then set_player_lasers s
                  (player_lasers s ++
                   [Laser.mk (Player.x (player s)) (Player.y (player s) - 1)
                             "|" (-1)])
           else s)) /\
  (forall (k : Z) (s s' : GameState),
     k <> ord_space -> k <> ord_z ->
     handle_input k s = Some s' -> player_lasers s' = player_lasers s) /\
  (forall ev : Event,
     Forall (fun f : GameState -> GameState =>
               forall s, (length (player_lasers (f s)) <=
                          length (player_lasers s))%nat)
            (sections ev)).
Proof.
  assert (Hsession : forall h w evs,
     Forall (fun s => (length (player_lasers s) <= 3)%nat)
            (session_states evs (GameState_init h w))).
  { intros h w evs. apply session_states_inv.
    - intros k s s' Hs Hin. now apply (handle_input_frame k s s' Hin).
    - intros f Hf s Hs. destruct (Hf s) as (_ & _ & _ & Hl). lia.
    - unfold GameState_init. rewrite init_aliens_wave. simpl. lia. }
  split; [exact Hsession|]. split; [|split; [|split]].
  - intros h w evs. specialize (Hsession h w evs).
    rewrite Forall_forall in Hsession.
    pose proof (main_loop_in_session evs (GameState_init h w)) as Hin.
    unfold play.
    destruct (main_loop evs (GameState_init h w)) as [[e s] frames].
    apply Hsession. exact Hin.
  - intros k s [-> | ->]; unfold handle_input; simpl;
      now destruct (Z.of_nat (length (player_lasers s)) <? 3).
  - intros k s s' Hsp Hz. unfold handle_input.
    destruct ((k =? ord_q) || (k =? ord_Q)); [discriminate|].
    destruct (k =? KEY_LEFT); [intros [= <-]; reflexivity|].
    destruct (k =? KEY_RIGHT); [intros [= <-]; reflexivity|].
    replace ((k =? ord_space) || (k =? ord_z)) with false
      by (symmetry; apply orb_false_iff; lia).
    now intros [= <-].
  - intros ev. eapply Forall_impl; [apply sections_frame|].
    intros f Hf s. now destruct (Hf s) as (_ & _ & _ & Hl).
Qed.

Lemma C7_player_laser_cap_witness :
  let s := mkState 24 80 (Player.init 40 22 80) [Alien.init 18 2]
                   [Laser.init 40 20 (-1); Laser.init 40 21 (-1)] []
                   1 0 0 1 false in
  handle_input ord_space s =
  Some (set_player_lasers s
          [Laser.init 40 20 (-1); Laser.init 40 21 (-1); Laser.init 40 21 (-1)]) /\
  handle_input ord_space
    (set_player_lasers s
       [Laser.init 40 20 (-1); Laser.init 40 21 (-1); Laser.init 40 21 (-1)]) =
  Some (set_player_lasers s
          [Laser.init 40 20 (-1); Laser.init 40 21 (-1); Laser.init 40 21 (-1)]).
Proof.
  split.
  - apply (proj1 (proj2 (proj2 C7_player_laser_cap)) ord_space
             (mkState 24 80 (Player.init 40 22 80) [Alien.init 18 2]
                      [Laser.init 40 20 (-1); Laser.init 40 21 (-1)] []
                      1 0 0 1 false)).
    left. reflexivity.
  - apply (proj1 (proj2 (proj2 C7_player_laser_cap)) ord_space
             (mkState 24 80 (Player.init 40 22 80) [Alien.init 18 2]
                      [Laser.init 40 20 (-1); Laser.init 40 21 (-1);
                       Laser.init 40 21 (-1)] []
                      1 0 0 1 false)).
    left. reflexivity.
Defined.

(** ** The player's row *)

(** C10. The player starts on row [height - 2]; [Player.move] leaves [y] as
    it is; and through a whole session, at the head of every iteration and
    after each of its sections, wave clears included, the player is on that
    same row. *)
Theorem C10_player_row_constant :
  (forall h w : Z, Player.y (player (GameState_init h w)) = h - 2) /\
  (forall (p : Player.t) (dx : Z), Player.y (Player.move p dx) = Player.y p) /\
  (forall (h w : Z) (evs : list Event),
     Forall (fun s => Player.y (player s) = h - 2)
            (session_states evs (GameState_init h w))) /\
  (forall (h w : Z) (evs : list Event),
     Player.y (player (play h w evs).1.2) = h - 2) /\
  (forall s : GameState, player (level_cleared s) = player s).
Proof.
  assert (Hinit : forall h w, Player.y (player (GameState_init h w)) = h - 2).
  { intros h w. unfold GameState_init. rewrite init_aliens_wave. reflexivity. }
  assert (Hsession : forall h w evs,
     Forall (fun s => Player.y (player s) = h - 2)
            (session_states evs (GameState_init h w))).
  { intros h w evs. apply session_states_inv.
    - intros k s s' Hs Hin.
      destruct (handle_input_frame k s s' Hin) as (Hy & _). congruence.
    - intros f Hf s Hs. destruct (Hf s) as (Hp & _). now rewrite Hp.
    - apply Hinit. }
  split; [exact Hinit|]. split; [reflexivity|]. split; [exact Hsession|].
  split.
  - intros h w evs. specialize (Hsession h w evs).
    rewrite Forall_forall in Hsession.
    pose proof (main_loop_in_session evs (GameState_init h w)) as Hin.
    unfold play.
    destruct (main_loop evs (GameState_init h w)) as [[e s] frames].
    apply Hsession. exact Hin.
  - intros s. now destruct (level_cleared_frame s).
Qed.

(** ** Leaving the loop *)

Lemma update_dims (ev : Event) (s : GameState) :
  height (update ev s) = height s /\ width (update ev s) = width s.
Proof.
  unfold update.
  apply (run_sections_inv
           (fun s' => height s' = height s /\ width s' = width s)).
  - intros f Hf s' [Hh Hw]. destruct (Hf s') as (_ & Hh' & Hw' & _).
    split; congruence.
  - apply sections_frame.
  - split; reflexivity.
Qed.

Lemma main_loop_dims (evs : list Event) : forall s : GameState,
  height (main_loop evs s).1.2 = height s /\
  width (main_loop evs s).1.2 = width s.
Proof.
  induction evs as [|ev rest IH]; intros s; [split; reflexivity|].
  rewrite main_loop_cons.
  destruct (game_over s); [split; reflexivity|].
  destruct (handle_input (key ev) s) as [s1|] eqn:Hin; [|split; reflexivity].
  destruct (handle_input_frame _ _ _ Hin) as (_ & Hh & Hw & _).
  destruct (update_dims ev s1) as [Hh' Hw'].
  specialize (IH (update ev s1)).
  destruct (main_loop rest (update ev s1)) as [[e s3] calls]. simpl in *.
  split; destruct IH; congruence.
Qed.

Lemma main_loop_flag (evs : list Event) : forall s : GameState,
  (main_loop evs s).1.1 = GameOverFlag <-> game_over (main_loop evs s).1.2 = true.
Proof.
  induction evs as [|ev rest IH]; intros s.
  - simpl. destruct (game_over s) eqn:Hg; simpl; rewrite ?Hg; split; congruence.
  - rewrite main_loop_cons. destruct (game_over s) eqn:Hg.
    + simpl. rewrite ?Hg. split; reflexivity.
    + destruct (handle_input (key ev) s) as [s1|].
      * specialize (IH (update ev s1)).
        destruct (main_loop rest (update ev s1)) as [[e s3] calls]. exact IH.
      * simpl. rewrite ?Hg. split; discriminate.
Qed.

Lemma main_loop_frames (evs : list Event) : forall s : GameState,
  exists drawn : list GameState, (main_loop evs s).2 = DrawFrame <$> drawn.
Proof.
  induction evs as [|ev rest IH]; intros s; [now exists []|].
  rewrite main_loop_cons.
  destruct (game_over s); [now exists []|].
  destruct (handle_input (key ev) s) as [s1|]; [|now exists []].
  destruct (IH (update ev s1)) as [drawn Hd].
  destruct (main_loop rest (update ev s1)) as [[e s3] calls]. simpl in *.
  exists (update ev s1 :: drawn). now rewrite Hd.
Qed.

Lemma main_loop_app (evs more : list Event) : forall s0 s frames,
  main_loop evs s0 = (StillRunning, s, frames) ->
  main_loop (evs ++ more) s0 =
  let '(e, s', calls) := main_loop more s in (e, s', frames ++ calls).
Proof.
  induction evs as [|ev rest IH]; intros s0 s frames H.
  - simpl in H. destruct (game_over s0); [discriminate|].
    injection H as <- <-. simpl.
    now destruct (main_loop more s0) as [[e s'] calls].
  - rewrite <- app_comm_cons, main_loop_cons. rewrite main_loop_cons in H.
    destruct (game_over s0); [discriminate|].
    destruct (handle_input (key ev) s0) as [s1|]; [|discriminate].
    destruct (main_loop rest (update ev s1)) as [[e s3] calls] eqn:Hrest.
    injection H as -> -> <-.
    rewrite (IH _ _ _ Hrest).
    now destruct (main_loop more s) as [[e' s'] calls'].
Qed.

Lemma py_len_msg : py_len msg = 33.
Proof. vm_compute. reflexivity. Qed.

(** The three statements after the loop run on every way out of it, the
    quit keys included. *)
Lemma play_after_loop (h w : Z) (evs : list Event) :
  (play h w evs).1.1 <> StillRunning ->
  exists drawn : list GameState,
    (play h w evs).2 =
    [CursSet 0; NoDelay true; SetTimeout 0] ++ (DrawFrame <$> drawn) ++
    [NoDelay false; AddStr (h / 2) ((w - 33) / 2) msg; GetCh].
Proof.
  unfold play. intros He.
  assert (Hh0 : height (GameState_init h w) = h).
  { unfold GameState_init. now rewrite init_aliens_wave. }
  assert (Hw0 : width (GameState_init h w) = w).
  { unfold GameState_init. now rewrite init_aliens_wave. }
  destruct (main_loop_dims evs (GameState_init h w)) as [Hh Hw].
  destruct (main_loop_frames evs (GameState_init h w)) as [drawn Hd].
  rewrite Hh0 in Hh. rewrite Hw0 in Hw.
  destruct (main_loop evs (GameState_init h w)) as [[e s] frames].
  cbn [fst snd] in *. exists drawn. subst frames.
  unfold game_over_screen. rewrite py_len_msg, Hh, Hw.
  destruct e; [reflexivity | reflexivity | congruence].
Qed.

(** C5. On a window of at least 3 rows and 33 columns (where curses
    accepts the texts [play] writes): a quit key ([q] or [Q]) read while
    the loop is running leaves the loop at once, in the state the
    iteration started with, with nothing more drawn and the game-over flag
    not set.  The way out is [GameOverFlag] exactly when the flag is set,
    so leaving by a quit key is told apart from a game over.  When the
    loop is left by the flag, what follows the frames is the switch to
    blocking input, the message written on row [h / 2] from column
    [(w - 33) / 2], and one wait for a key.  The message has 33
    characters, its row is inside the window and not the last one, and
    that column centres it: it starts inside the window and the free
    columns to its right are as many as those to its left, or one more. *)
Theorem C5_quit_and_game_over (h w : Z) (evs : list Event) :
  3 <= h -> 33 <= w ->
  (forall (rest : list Event) (ev : Event) (s : GameState)
          (frames : list ScreenCall),
     main_loop evs (GameState_init h w) = (StillRunning, s, frames) ->
     key ev = ord_q \/ key ev = ord_Q ->
     main_loop (evs ++ ev :: rest) (GameState_init h w) =
       (QuitKey, s, frames) /\
     game_over s = false) /\
  ((play h w evs).1.1 = GameOverFlag <->
   game_over (play h w evs).1.2 = true) /\
  ((play h w evs).1.1 = GameOverFlag ->
   exists drawn : list GameState,
     (play h w evs).2 =
     [CursSet 0; NoDelay true; SetTimeout 0] ++ (DrawFrame <$> drawn) ++
     [NoDelay false; AddStr (h / 2) ((w - 33) / 2) msg; GetCh]) /\
  py_len msg = 33 /\
  0 <= h / 2 < h - 1 /\
  0 <= (w - 33) / 2 /\
  0 <= (w - ((w - 33) / 2 + py_len msg)) - (w - 33) / 2 <= 1.
Proof.
  intros Hh3 Hw33. split; [|split; [|split; [|split; [|split; [|split]]]]].
  - intros rest ev s frames Hrun Hkey.
    pose proof (main_loop_flag evs (GameState_init h w)) as Hflag.
    rewrite Hrun in Hflag. simpl in Hflag.
    assert (Hg : game_over s = false).
    { destruct (game_over s); [|reflexivity].
      destruct Hflag as [_ Hflag]. now specialize (Hflag eq_refl). }
    split; [|exact Hg].
    rewrite (main_loop_app _ _ _ _ _ Hrun), main_loop_cons, Hg.
    unfold handle_input.
    replace ((key ev =? ord_q) || (key ev =? ord_Q)) with true
      by (symmetry; apply orb_true_iff; lia).
    now rewrite app_nil_r.
  - unfold play.
    pose proof (main_loop_flag evs (GameState_init h w)) as Hflag.
    now destruct (main_loop evs (GameState_init h w)) as [[e s] frames].
  - intros He. apply play_after_loop. rewrite He. discriminate.
  - apply py_len_msg.
  - pose proof (Z.div_mod h 2 ltac:(lia)).
    pose proof (Z.mod_pos_bound h 2 ltac:(lia)). lia.
  - pose proof (Z.div_mod (w - 33) 2 ltac:(lia)).
    pose proof (Z.mod_pos_bound (w - 33) 2 ltac:(lia)). lia.
  - rewrite py_len_msg.
    pose proof (Z.div_mod (w - 33) 2 ltac:(lia)).
    pose proof (Z.mod_pos_bound (w - 33) 2 ltac:(lia)). lia.
Qed.

Lemma C5_quit_and_game_over_witness :
  (let idle := mkEvent NO_KEY true true false 0 in
   let quit := mkEvent ord_Q false false false 0 in
   let s0 := GameState_init 24 80 in
   main_loop ([idle] ++ quit :: [idle]) s0 =
     (QuitKey, update idle s0, [DrawFrame (update idle s0)]) /\
   game_over (update idle s0) = false) /\
  (let evs := [mkEvent KEY_LEFT false false false 0;
               mkEvent KEY_LEFT false false true 49] in
   exists drawn : list GameState,
     (play 14 80 evs).2 =
     [CursSet 0; NoDelay true; SetTimeout 0] ++ (DrawFrame <$> drawn) ++
     [NoDelay false; AddStr (14 / 2) ((80 - 33) / 2) msg; GetCh]).
Proof.
  split.
  - apply (proj1 (C5_quit_and_game_over 24 80
                    [mkEvent NO_KEY true true false 0]
                    ltac:(lia) ltac:(lia))
             [mkEvent NO_KEY true true false 0]
             (mkEvent ord_Q false false false 0)).
    + vm_compute. reflexivity.
    + right. reflexivity.
  - apply (proj1 (proj2 (proj2 (C5_quit_and_game_over 14 80
                    [mkEvent KEY_LEFT false false false 0;
                     mkEvent KEY_LEFT false false true 49]
                    ltac:(lia) ltac:(lia))))).
    vm_compute. reflexivity.
Defined.

(** ** The march interval *)

Lemma py_max_floor (a b : float) :
  py_max a b = a \/ ((a <? py_max a b)%float = true /\ py_max a b = b).
Proof.
  unfold py_max. destruct (a <? b)%float eqn:Hlt; [right | left]; auto.
Qed.

Lemma ltb_leb (a b : float) : (a <? b)%float = true -> (a <=? b)%float = true.
Proof.
  rewrite ltb_spec, leb_spec. unfold SFltb, SFleb.
  now destruct (SFcompare (Prim2SF a) (Prim2SF b)) as [[]|].
Qed.

Lemma above_floor_positive (v : float) :
  (0.05 <? v)%float = true -> (0 <? v)%float = true.
Proof.
  rewrite !ltb_spec.
  replace (Prim2SF 0.05) with (S754_finite false 7205759403792794 (-57))
    by (vm_compute; reflexivity).
  replace (Prim2SF 0) with (S754_zero false) by (vm_compute; reflexivity).
  destruct (Prim2SF v) as [sg|sg| |sg m e]; try destruct sg;
    simpl; try discriminate; reflexivity.
Qed.

(** C4. At every level [L >= 1] (short of the astronomically large ones
    whose conversion to [float] overflows) the march interval is Python's
    [max(0.05, 0.3 - (L - 1) * 0.03)] in binary64 arithmetic; it is 0.05 or
    above, hence positive, whatever the level; it is above 0.05 below
    level 10, and at level 10 it is exactly 0.05. *)
Theorem C4_alien_speed (s : GameState) :
  1 <= level s -> level s - 1 < float_int_limit ->
  exists l1 v : float,
    float_of_int (level s - 1) = Some l1 /\
    alien_speed s = Some v /\
    v = py_max 0.05 (0.3 - l1 * 0.03)%float /\
    (v = 0.05%float \/ (0.05 <? v)%float = true) /\
    (0.05 <=? v)%float = true /\
    (0 <? v)%float = true /\
    (level s < 10 -> (0.05 <? v)%float = true) /\
    (level s = 10 -> v = 0.05%float).
Proof.
  intros H1 Hlim. unfold alien_speed, float_of_int.
  replace (Z.abs (level s - 1) <? float_int_limit) with true
    by (symmetry; apply Z.ltb_lt; lia).
  eexists _, _. split; [reflexivity|]. split; [reflexivity|].
  split; [reflexivity|].
  assert (Hbelow : level s < 10 ->
    (0.05 <? py_max 0.05
       (0.3 - SF2Prim (binary_normalize 53 1024 (level s - 1) 0 false) * 0.03))%float
    = true).
  { intros H10.
    assert (Hl : level s = 1 \/ level s = 2 \/ level s = 3 \/ level s = 4 \/
                 level s = 5 \/ level s = 6 \/ level s = 7 \/ level s = 8 \/
                 level s = 9) by lia.
    repeat (destruct Hl as [Hl | Hl]; [rewrite Hl; vm_compute; reflexivity|]).
    rewrite Hl. vm_compute. reflexivity. }
  assert (Hten : level s = 10 ->
    py_max 0.05
      (0.3 - SF2Prim (binary_normalize 53 1024 (level s - 1) 0 false) * 0.03)%float
    = 0.05%float).
  { intros H10. rewrite H10. vm_compute. reflexivity. }
  set (l1 := SF2Prim (binary_normalize 53 1024 (level s - 1) 0 false)) in *.
  destruct (py_max_floor 0.05 (0.3 - l1 * 0.03)%float) as [Heq | [Hlt Heq]].
  - split; [now left|]. split; [|split; [|split]]; try assumption.
    + rewrite Heq. vm_compute. reflexivity.
    + rewrite Heq. vm_compute. reflexivity.
  - split; [now right|]. split; [now apply ltb_leb|].
    split; [now apply above_floor_positive|]. split; assumption.
Qed.

Lemma C4_alien_speed_witness :
  let s := mkState 24 80 (Player.init 40 22 80) [Alien.init 18 2] [] []
                   1 0 4950 10 false in
  exists l1 v : float,
    float_of_int (level s - 1) = Some l1 /\
    alien_speed s = Some v /\
    v = py_max 0.05 (0.3 - l1 * 0.03)%float /\
    (v = 0.05%float \/ (0.05 <? v)%float = true) /\
    (0.05 <=? v)%float = true /\
    (0 <? v)%float = true /\
    (level s < 10 -> (0.05 <? v)%float = true) /\
    (level s = 10 -> v = 0.05%float).
Proof.
  apply (C4_alien_speed
           (mkState 24 80 (Player.init 40 22 80) [Alien.init 18 2] [] []
                    1 0 4950 10 false)).
  - simpl. lia.
  - vm_compute. reflexivity.
Defined.

(** ** Sections taken one by one *)

(** A property kept by the input section and by each later section is kept
    by whole iterations and holds in every state of a session. *)
Section SessionInvariant.
Variable Inv : GameState -> Prop.
Hypothesis Inv_input :
  forall k s s', Inv s -> handle_input k s = Some s' -> Inv s'.
Hypothesis Inv_march : forall s, Inv s -> Inv (advance_aliens s).
Hypothesis Inv_anim : forall s, Inv s -> Inv (animate_aliens s).
Hypothesis Inv_fire : forall ev s, Inv s -> Inv (aliens_fire ev s).
Hypothesis Inv_lasers : forall s, Inv s -> Inv (update_lasers s).
Hypothesis Inv_collide : forall s, Inv s -> Inv (resolve_collisions s).
Hypothesis Inv_hit : forall s, Inv s -> Inv (alien_lasers_hit s).
Hypothesis Inv_cleared : forall s, Inv s -> Inv (level_cleared s).

Lemma sections_keep (ev : Event) :
  Forall (fun f : GameState -> GameState => forall s, Inv s -> Inv (f s))
         (sections ev).
Proof using Inv_march Inv_anim Inv_fire Inv_lasers Inv_collide Inv_hit Inv_cleared.
  unfold sections. repeat apply Forall_cons_2; try apply Forall_nil_2; auto.
  - destruct (march_due ev); auto.
  - destruct (anim_due ev); auto.
Qed.

Lemma run_sections_keep (fs : list (GameState -> GameState)) :
  Forall (fun f : GameState -> GameState => forall s, Inv s -> Inv (f s)) fs ->
  forall s, Inv s ->
    Forall Inv (run_sections fs s) /\ Inv (foldl (fun st f => f st) s fs).
Proof using Type.
  induction 1 as [|f fs Hf _ IH]; intros s Hs; simpl.
  - split; [constructor | exact Hs].
  - destruct (IH (f s) (Hf s Hs)) as [H1 H2].
    split; [constructor; auto | exact H2].
Qed.

Lemma update_keeps (ev : Event) (s : GameState) : Inv s -> Inv (update ev s).
Proof using Inv_march Inv_anim Inv_fire Inv_lasers Inv_collide Inv_hit Inv_cleared.
  intros Hs. apply (run_sections_keep (sections ev) (sections_keep ev) s Hs).
Qed.

Lemma session_keeps (evs : list Event) :
  forall s, Inv s -> Forall Inv (session_states evs s).
Proof using Inv_input Inv_march Inv_anim Inv_fire Inv_lasers Inv_collide Inv_hit Inv_cleared.
  induction evs as [|ev rest IH]; intros s Hs.
  - repeat constructor. exact Hs.
  - rewrite session_states_cons. constructor; [exact Hs|].
    destruct (game_over s); [constructor|].
    destruct (handle_input (key ev) s) as [s1|] eqn:Hin; [|constructor].
    pose proof (Inv_input _ _ _ Hs Hin) as Hs1.
    destruct (run_sections_keep (sections ev) (sections_keep ev) s1 Hs1)
      as [H1 H2].
    constructor; [exact Hs1|].
    apply Forall_app. split; [exact H1|]. apply IH. exact H2.
Qed.
End SessionInvariant.

(** What the input section leaves as it is. *)
Lemma handle_input_keeps (k : Z) (s s' : GameState) :
  handle_input k s = Some s' ->
  aliens s' = aliens s /\ alien_lasers s' = alien_lasers s /\
  alien_dir s' = alien_dir s /\ tick s' = tick s /\ score s' = score s /\
  level s' = level s /\ game_over s' = game_over s /\
  height s' = height s /\ width s' = width s /\
  (player s' = player s \/
   exists dx : Z, player s' = Player.move (player s) dx) /\
  (player_lasers s' = player_lasers s \/
   player_lasers s' =
   player_lasers s ++
   [Laser.init (Player.x (player s)) (Player.y (player s) - 1) (-1)]).
Proof.
  unfold handle_input. intros H.
  destruct ((k =? ord_q) || (k =? ord_Q)); [discriminate|].
  destruct (k =? KEY_LEFT);
    [injection H as <-; simpl; repeat split; eauto|].
  destruct (k =? KEY_RIGHT);
    [injection H as <-; simpl; repeat split; eauto|].
  destruct ((k =? ord_space) || (k =? ord_z));
    [|injection H as <-; repeat split; eauto].
  destruct (Z.of_nat (length (player_lasers s)) <? 3);
    injection H as <-; simpl; repeat split; eauto.
Qed.

Lemma Forall_of_sublist {A} (P : A -> Prop) (l1 l2 : list A) :
  sublist l1 l2 -> Forall P l2 -> Forall P l1.
Proof.
  intros Hsub. rewrite !Forall_forall. intros H x Hx.
  apply H. eapply elem_of_sublist; eauto.
Qed.

Lemma existsb_false_Forall {A} (f : A -> bool) (l : list A) :
  existsb f l = false <-> Forall (fun x => f x = false) l.
Proof.
  induction l as [|x l IH]; simpl.
  - split; [constructor | reflexivity].
  - rewrite orb_false_iff, IH, Forall_cons. reflexivity.
Qed.

Lemma resolve_collisions_keeps (s : GameState) :
  sublist (player_lasers (resolve_collisions s)) (player_lasers s) /\
  sublist (aliens (resolve_collisions s)) (aliens s) /\
  (exists k : nat, score (resolve_collisions s) = score s + 10 * Z.of_nat k) /\
  player (resolve_collisions s) = player s /\
  alien_lasers (resolve_collisions s) = alien_lasers s /\
  alien_dir (resolve_collisions s) = alien_dir s /\
  tick (resolve_collisions s) = tick s /\
  level (resolve_collisions s) = level s /\
  game_over (resolve_collisions s) = game_over s /\
  height (resolve_collisions s) = height s /\
  width (resolve_collisions s) = width s.
Proof.
  unfold resolve_collisions.
  destruct (collide_loop_account (player_lasers s) (aliens s) (score s))
    as (k & H1 & H2 & H3 & H4 & H5).
  destruct (collide_loop (player_lasers s) (aliens s) (score s))
    as [[ls als] sc]. simpl in *.
  repeat split; auto. exists k. exact H3.
Qed.

Lemma elem_of_range (n : nat) (z : Z) : z ∈ range n <-> 0 <= z < Z.of_nat n.
Proof.
  unfold range. rewrite list_elem_of_fmap. split.
  - intros (i & -> & Hi). apply elem_of_seq in Hi. lia.
  - intros Hz. exists (Z.to_nat z). split; [lia|]. apply elem_of_seq. lia.
Qed.

Lemma grid_Forall (P : Alien.t -> Prop) (xm : Z) (rows cols : list Z) :
  (forall r c, r ∈ rows -> c ∈ cols ->
     P (Alien.init (xm + c * 4) (2 + r * 2))) ->
  Forall P (grid xm rows cols).
Proof.
  unfold grid. induction rows as [|r rows IH]; intros H; simpl.
  - constructor.
  - apply Forall_app. split.
    + apply Forall_fmap, Forall_forall. intros c Hc. simpl.
      apply H; [apply list_elem_of_here | exact Hc].
    + apply IH. intros r' c Hr Hc. apply H; [|exact Hc].
      now apply list_elem_of_further.
Qed.

Lemma wave_Forall (P : Alien.t -> Prop) (w : Z) :
  (forall r c, 0 <= r < 5 -> 0 <= c < 11 ->
     P (Alien.init ((w - 44) / 2 + c * 4) (2 + r * 2))) ->
  Forall P (wave w).
Proof.
  intros H. apply grid_Forall. intros r c Hr Hc.
  apply elem_of_range in Hr, Hc. apply H; lia.
Qed.

Lemma wave_length (w : Z) : length (wave w) = 55%nat.
Proof. reflexivity. Qed.

(** ** Well-formed states *)

Lemma update_player_lasers_ok (d : Z) (ls : list Laser.t) :
  Forall (laser_ok d) ls -> Forall (laser_ok d) (update_player_lasers ls).
Proof.
  induction 1 as [|l ls Hl _ IH]; simpl; [constructor|].
  destruct (Laser.y l + Laser.dir l <=? 1); [exact IH|].
  constructor; [exact Hl | exact IH].
Qed.

Lemma update_alien_lasers_ok (d h : Z) (ls : list Laser.t) :
  Forall (laser_ok d) ls -> Forall (laser_ok d) (update_alien_lasers h ls).
Proof.
  induction 1 as [|l ls Hl _ IH]; simpl; [constructor|].
  destruct (Laser.y l + Laser.dir l >=? h - 1); [exact IH|].
  constructor; [exact Hl | exact IH].
Qed.

Lemma animate_ok (f : Z) (a : Alien.t) :
  alien_ok f a -> alien_ok ((f + 1) mod 4) (Alien.animate a).
Proof. intros [Hf _]. unfold alien_ok. simpl. rewrite Hf. auto. Qed.

Lemma wf_init (h w : Z) : well_formed h w (GameState_init h w).
Proof.
  unfold GameState_init. rewrite init_aliens_wave.
  unfold well_formed. simpl. split_and!; auto; try lia.
  exists 0. split; [lia|]. apply wave_Forall. intros r c _ _. split; reflexivity.
Qed.

Lemma wf_input (h w k : Z) (s s' : GameState) :
  well_formed h w s -> handle_input k s = Some s' -> well_formed h w s'.
Proof.
  intros (Hh & Hw & Ht & Hmx & Hch & Hd & Hpl & Hal & Hf & Hlen & Hs0 & Hs10 & Hlv)
         Hin.
  destruct (handle_input_keeps k s s' Hin)
    as (Ea & Eal & Ed & Et & Es & El & _ & Eh & Ew & Ep & Epl).
  unfold well_formed. rewrite Ea, Eal, Ed, Et, Es, El, Eh, Ew.
  split_and!; try assumption.
  - destruct Ep as [-> | [dx ->]]; assumption.
  - destruct Ep as [-> | [dx ->]]; assumption.
  - destruct Epl as [-> | ->]; [assumption|].
    apply Forall_app. split; [assumption|]. repeat constructor.
Qed.

Lemma wf_march (h w : Z) (s : GameState) :
  well_formed h w s -> well_formed h w (advance_aliens s).
Proof.
  intros (Hh & Hw & Ht & Hmx & Hch & Hd & Hpl & Hal & (f & Hf & Hfa) & Hlen
          & Hs0 & Hs10 & Hlv).
  rewrite advance_aliens_spec.
  destruct (existsb _ _); unfold well_formed; simpl; split_and!;
    try assumption.
  - destruct Hd; [right | left]; lia.
  - exists f. split; [assumption|]. rewrite !Forall_fmap.
    eapply Forall_impl; [exact Hfa|]. now intros a [? ?].
  - now rewrite !length_fmap.
  - exists f. split; [assumption|]. rewrite Forall_fmap.
    eapply Forall_impl; [exact Hfa|]. now intros a [? ?].
  - now rewrite length_fmap.
Qed.

Lemma wf_anim (h w : Z) (s : GameState) :
  well_formed h w s -> well_formed h w (animate_aliens s).
Proof.
  intros (Hh & Hw & Ht & Hmx & Hch & Hd & Hpl & Hal & (f & Hf & Hfa) & Hlen
          & Hs0 & Hs10 & Hlv).
  unfold well_formed, animate_aliens. simpl. split_and!; try assumption.
  - exists ((f + 1) mod 4). split; [apply Z.mod_pos_bound; lia|].
    rewrite Forall_fmap. eapply Forall_impl; [exact Hfa|].
    intros a Ha. now apply animate_ok.
  - now rewrite length_fmap.
Qed.

Lemma wf_fire (h w : Z) (ev : Event) (s : GameState) :
  well_formed h w s -> well_formed h w (aliens_fire ev s).
Proof.
  intros Hs. unfold aliens_fire.
  destruct (bool_decide (aliens s = [])); [exact Hs|].
  destruct (fire_roll ev); [|exact Hs].
  destruct (aliens s !! _) as [shooter|]; [|exact Hs].
  destruct Hs as (Hh & Hw & Ht & Hmx & Hch & Hd & Hpl & Hal & Hf & Hlen
                  & Hs0 & Hs10 & Hlv).
  unfold well_formed. simpl. split_and!; try assumption.
  apply Forall_app. split; [assumption|]. repeat constructor.
Qed.

Lemma wf_lasers (h w : Z) (s : GameState) :
  well_formed h w s -> well_formed h w (update_lasers s).
Proof.
  intros (Hh & Hw & Ht & Hmx & Hch & Hd & Hpl & Hal & Hf & Hlen
          & Hs0 & Hs10 & Hlv).
  unfold well_formed, update_lasers. simpl. split_and!; try assumption.
  - now apply update_player_lasers_ok.
  - now apply update_alien_lasers_ok.
Qed.

Lemma wf_collide (h w : Z) (s : GameState) :
  well_formed h w s -> well_formed h w (resolve_collisions s).
Proof.
  intros (Hh & Hw & Ht & Hmx & Hch & Hd & Hpl & Hal & (f & Hf & Hfa) & Hlen
          & Hs0 & Hs10 & Hlv).
  destruct (resolve_collisions_keeps s)
    as (Sl & Sa & (k & Ek) & Ep & Eal & Ed & Et & El & _ & Eh & Ew).
  unfold well_formed. rewrite Ep, Eal, Ed, Et, El, Eh, Ew, Ek.
  split_and!; try assumption.
  - eapply Forall_of_sublist; eauto.
  - exists f. split; [assumption|]. eapply Forall_of_sublist; eauto.
  - apply sublist_length in Sa. lia.
  - lia.
  - rewrite (Z.mul_comm 10), Z_mod_plus_full. exact Hs10.
Qed.

Lemma wf_hit (h w : Z) (s : GameState) :
  well_formed h w s -> well_formed h w (alien_lasers_hit s).
Proof. intros Hs. exact Hs. Qed.

Lemma wf_cleared (h w : Z) (s : GameState) :
  well_formed h w s -> well_formed h w (level_cleared s).
Proof.
  intros Hs. destruct (aliens s) as [|a als] eqn:Ha.
  - rewrite level_cleared_empty by exact Ha.
    destruct Hs as (Hh & Hw & Ht & Hmx & Hch & Hd & Hpl & Hal & Hf & Hlen
                    & Hs0 & Hs10 & Hlv).
    unfold well_formed.
    cbn [height width player aliens player_lasers alien_lasers alien_dir tick
         score level game_over].
    split_and!; try assumption.
    + constructor.
    + constructor.
    + exists 0. split; [lia|]. apply wave_Forall. intros r c _ _.
      split; reflexivity.
    + rewrite wave_length. lia.
    + lia.
  - rewrite level_cleared_nonempty by (rewrite Ha; discriminate). exact Hs.
Qed.

Lemma session_well_formed (h w : Z) (evs : list Event) :
  Forall (well_formed h w) (session_states evs (GameState_init h w)).
Proof.
  apply session_keeps; eauto using wf_input, wf_march, wf_anim, wf_fire,
    wf_lasers, wf_collide, wf_hit, wf_cleared, wf_init.
Qed.

(** ** The order of the states of a session *)

Section SessionOrder.
Variable R : relation GameState.
Hypothesis R_refl : forall s, R s s.
Hypothesis R_trans : forall a b c, R a b -> R b c -> R a c.
Hypothesis R_input : forall k s s', handle_input k s = Some s' -> R s s'.
Hypothesis R_sections :
  forall ev, Forall (fun f : GameState -> GameState => forall s, R s (f s))
                    (sections ev).

Lemma run_sections_ordered (fs : list (GameState -> GameState)) :
  Forall (fun f : GameState -> GameState => forall s, R s (f s)) fs ->
  forall s,
    StronglySorted R (run_sections fs s) /\
    Forall (R s) (run_sections fs s) /\
    Forall (fun a => R a (foldl (fun st f => f st) s fs)) (run_sections fs s) /\
    R s (foldl (fun st f => f st) s fs).
Proof using R_refl R_trans.
  induction 1 as [|f fs Hf _ IH]; intros s; simpl.
  - split_and!; try constructor. apply R_refl.
  - destruct (IH (f s)) as (H1 & H2 & H3 & H4). split_and!.
    + constructor; assumption.
    + constructor; [apply Hf|].
      eapply Forall_impl; [exact H2|]. intros a Ha.
      eapply R_trans; [apply Hf | exact Ha].
    + constructor; assumption.
    + eapply R_trans; [apply Hf | exact H4].
Qed.

Lemma update_ordered (ev : Event) (s : GameState) :
  StronglySorted R (run_sections (sections ev) s) /\
  Forall (R s) (run_sections (sections ev) s) /\
  Forall (fun a => R a (update ev s)) (run_sections (sections ev) s) /\
  R s (update ev s).
Proof using R_refl R_trans R_sections.
  exact (run_sections_ordered (sections ev) (R_sections ev) s).
Qed.

Lemma session_after_start (evs : list Event) :
  forall s, Forall (R s) (session_states evs s).
Proof using R_refl R_trans R_input R_sections.
  induction evs as [|ev rest IH]; intros s.
  - repeat constructor. apply R_refl.
  - rewrite session_states_cons. constructor; [apply R_refl|].
    destruct (game_over s); [constructor|].
    destruct (handle_input (key ev) s) as [s1|] eqn:Hin; [|constructor].
    pose proof (R_input _ _ _ Hin) as H01.
    destruct (update_ordered ev s1) as (_ & H2 & _ & H4).
    constructor; [exact H01|]. apply Forall_app. split.
    + eapply Forall_impl; [exact H2|]. intros a Ha.
      eapply R_trans; eauto.
    + eapply Forall_impl; [apply (IH (update ev s1))|]. intros a Ha.
      eapply R_trans; [|exact Ha]. eapply R_trans; eauto.
Qed.

Lemma session_ordered (evs : list Event) :
  forall s, StronglySorted R (session_states evs s).
Proof using R_refl R_trans R_input R_sections.
  induction evs as [|ev rest IH]; intros s.
  - repeat constructor.
  - pose proof (session_after_start (ev :: rest) s) as Hall.
    rewrite session_states_cons in Hall |- *.
    apply Forall_cons in Hall as [_ Hall].
    constructor; [|exact Hall].
    destruct (game_over s); [constructor|].
    destruct (handle_input (key ev) s) as [s1|] eqn:Hin; [|constructor].
    destruct (update_ordered ev s1) as (H1 & H2 & H3 & H4).
    pose proof (session_after_start rest (update ev s1)) as Hrest.
    constructor.
    + apply StronglySorted_app_2; [|exact H1|apply IH].
      intros a b Ha Hb.
      rewrite Forall_forall in H3, Hrest.
      eapply R_trans; [apply H3, Ha | apply Hrest, Hb].
    + apply Forall_app. split; [exact H2|].
      eapply Forall_impl; [exact Hrest|]. intros a Ha.
      eapply R_trans; [exact H4 | exact Ha].
Qed.
End SessionOrder.

Lemma no_earlier_refl (s : GameState) : no_earlier s s.
Proof. unfold no_earlier. split_and!; auto; lia. Qed.

Lemma no_earlier_trans (a b c : GameState) :
  no_earlier a b -> no_earlier b c -> no_earlier a c.
Proof. unfold no_earlier. intros (? & ? & ?) (? & ? & ?). split_and!; auto; lia. Qed.

Lemma no_earlier_input (k : Z) (s s' : GameState) :
  handle_input k s = Some s' -> no_earlier s s'.
Proof.
  intros Hin.
  destruct (handle_input_keeps k s s' Hin)
    as (_ & _ & _ & _ & Es & El & Eg & _).
  unfold no_earlier. rewrite Es, El, Eg. split_and!; auto; lia.
Qed.

Lemma no_earlier_sections (ev : Event) :
  Forall (fun f : GameState -> GameState => forall s, no_earlier s (f s))
         (sections ev).
Proof.
  unfold sections. repeat apply Forall_cons_2; try apply Forall_nil_2.
  - intros s. destruct (march_due ev); [|apply no_earlier_refl].
    rewrite advance_aliens_spec. destruct (existsb _ _);
      unfold no_earlier; simpl; split_and!; auto; try lia.
    intros ->. reflexivity.
  - intros s. destruct (anim_due ev); [|apply no_earlier_refl].
    unfold no_earlier. simpl. split_and!; auto; lia.
  - intros s. unfold aliens_fire.
    destruct (bool_decide _); [apply no_earlier_refl|].
    destruct (fire_roll ev); [|apply no_earlier_refl].
    destruct (aliens s !! _); [|apply no_earlier_refl].
    unfold no_earlier. simpl. split_and!; auto; lia.
  - intros s. unfold no_earlier. simpl. split_and!; auto; lia.
  - intros s.
    destruct (resolve_collisions_keeps s)
      as (_ & _ & (k & Ek) & _ & _ & _ & _ & El & Eg & _).
    unfold no_earlier. rewrite Ek, El, Eg. split_and!; auto; lia.
  - intros s. unfold alien_lasers_hit, no_earlier. simpl.
    rewrite player_hit_loop_spec. split_and!; try lia.
    intros ->. reflexivity.
  - intros s. destruct (aliens s) as [|a als] eqn:Ha.
    + rewrite level_cleared_empty by exact Ha.
      unfold no_earlier. simpl. split_and!; auto; lia.
    + rewrite level_cleared_nonempty by (rewrite Ha; discriminate).
      apply no_earlier_refl.
Qed.

(** ** Where the aliens and the player can be *)

Ltac elementwise a Ha :=
  rewrite ?Forall_fmap; apply Forall_forall; intros a Ha;
  unfold compose, shifted, lowered; simpl.

Lemma in_field_march (w : Z) (s : GameState) :
  aliens_in_field w s -> aliens_in_field w (advance_aliens s).
Proof.
  intros (Hw & Hd & Hall & Hr & Hl).
  rewrite Forall_forall in Hall.
  rewrite advance_aliens_spec.
  destruct (existsb _ _) eqn:E; unfold aliens_in_field; simpl.
  - destruct Hd as [Hd | Hd].
    + specialize (Hr Hd). rewrite Forall_forall in Hr.
      split_and!; [assumption | right; lia | | intros; lia | intros _];
        elementwise a Ha; specialize (Hall a Ha); specialize (Hr a Ha); lia.
    + specialize (Hl Hd). rewrite Forall_forall in Hl.
      split_and!; [assumption | left; lia | | intros _ | intros; lia];
        elementwise a Ha; specialize (Hall a Ha); specialize (Hl a Ha); lia.
  - apply existsb_false_Forall in E. rewrite Forall_fmap in E.
    rewrite Forall_forall in E.
    assert (Hin : forall a, a ∈ aliens s ->
              1 < Alien.x a + alien_dir s < w - 2).
    { intros a Ha. specialize (E a Ha). unfold compose, at_edge, shifted in E.
      simpl in E. apply orb_false_iff in E. lia. }
    split_and!; [assumption | assumption | | intros _ | intros _];
      elementwise a Ha; specialize (Hin a Ha); lia.
Qed.

Lemma in_field_wave (w : Z) :
  48 <= w ->
  Forall (fun a => 2 <= Alien.x a <= w - 3) (wave w).
Proof.
  intros Hw. apply wave_Forall. intros r c Hr Hc. simpl.
  pose proof (Z.div_mod (w - 44) 2 ltac:(lia)).
  pose proof (Z.mod_pos_bound (w - 44) 2 ltac:(lia)). lia.
Qed.

Lemma in_field_cleared (w : Z) (s : GameState) :
  48 <= w -> aliens_in_field w s -> aliens_in_field w (level_cleared s).
Proof.
  intros Hw48 Hs. destruct (aliens s) as [|a als] eqn:Ha.
  - rewrite level_cleared_empty by exact Ha.
    destruct Hs as (Hw & Hd & _). unfold aliens_in_field.
    cbn [width aliens alien_dir]. rewrite Hw.
    pose proof (in_field_wave w Hw48) as Hwave.
    split_and!; [reflexivity | assumption | | intros _ | intros _];
      (eapply Forall_impl; [exact Hwave|]); intros b Hb; simpl in Hb; lia.
  - rewrite level_cleared_nonempty by (rewrite Ha; discriminate). exact Hs.
Qed.

Lemma kept_session (Inv : GameState -> Prop) :
  kept Inv -> forall evs s, Inv s -> Forall Inv (session_states evs s).
Proof.
  intros (H1 & H2 & H3 & H4 & H5 & H6 & H7 & H8) evs s.
  now apply session_keeps.
Qed.

Lemma kept_update (Inv : GameState -> Prop) :
  kept Inv -> forall ev s, Inv s -> Inv (update ev s).
Proof.
  intros (H1 & H2 & H3 & H4 & H5 & H6 & H7 & H8) ev s.
  now apply update_keeps.
Qed.

Lemma kept_and (A B : GameState -> Prop) :
  kept A -> kept B -> kept (fun s => A s /\ B s).
Proof.
  intros (A1 & A2 & A3 & A4 & A5 & A6 & A7 & A8)
         (B1 & B2 & B3 & B4 & B5 & B6 & B7 & B8).
  unfold kept. split_and!.
  - intros k s s' [Ha Hb] Hin. split; eauto.
  - intros s [Ha Hb]. split; auto.
  - intros s [Ha Hb]. split; auto.
  - intros ev s [Ha Hb]. split; auto.
  - intros s [Ha Hb]. split; auto.
  - intros s [Ha Hb]. split; auto.
  - intros s [Ha Hb]. split; auto.
  - intros s [Ha Hb]. split; auto.
Qed.

Lemma wf_kept (h w : Z) : kept (well_formed h w).
Proof.
  unfold kept. split_and!;
    eauto using wf_input, wf_march, wf_anim, wf_fire, wf_lasers, wf_collide,
      wf_hit, wf_cleared.
Qed.

Lemma in_field_kept (w : Z) : 48 <= w -> kept (aliens_in_field w).
Proof.
  intros Hw48. unfold kept. split_and!.
  - intros k s s' Hs Hin.
    destruct (handle_input_keeps k s s' Hin) as (Ea & _ & Ed & _ & _ & _ & _ & _ & Ew & _).
    unfold aliens_in_field. now rewrite Ea, Ed, Ew.
  - apply in_field_march.
  - intros s (Hw & Hd & Hall & Hr & Hl). unfold aliens_in_field. simpl.
    rewrite !Forall_fmap. split_and!; assumption.
  - intros ev s Hs. unfold aliens_fire.
    destruct (bool_decide _); [exact Hs|].
    destruct (fire_roll ev); [|exact Hs].
    destruct (aliens s !! _); exact Hs.
  - intros s Hs. exact Hs.
  - intros s (Hw & Hd & Hall & Hr & Hl).
    destruct (resolve_collisions_keeps s)
      as (_ & Sa & _ & _ & _ & Ed & _ & _ & _ & _ & Ew).
    unfold aliens_in_field. rewrite Ed, Ew.
    split_and!; try assumption; try intros Hdir;
      eapply Forall_of_sublist; eauto.
  - intros s Hs. exact Hs.
  - intros s. now apply in_field_cleared.
Qed.

Lemma in_field_init (h w : Z) :
  48 <= w -> aliens_in_field w (GameState_init h w).
Proof.
  intros Hw48. unfold GameState_init. rewrite init_aliens_wave.
  unfold aliens_in_field, set_aliens. cbn [width aliens alien_dir app].
  pose proof (in_field_wave w Hw48) as Hwave.
  split_and!; [reflexivity | now left | | intros _ | intros; lia];
    (eapply Forall_impl; [exact Hwave|]); intros b Hb; simpl in Hb; lia.
Qed.

Lemma session_in_field (w h : Z) (evs : list Event) :
  48 <= w ->
  Forall (aliens_in_field w) (session_states evs (GameState_init h w)).
Proof.
  intros Hw48. apply kept_session;
    [now apply in_field_kept | now apply in_field_init].
Qed.

Lemma above_march (h : Z) (s : GameState) :
  aliens_above_player h s -> aliens_above_player h (advance_aliens s).
Proof.
  intros (Hpy & Hlow & Habove). rewrite Forall_forall in Hlow.
  rewrite advance_aliens_spec.
  destruct (existsb _ _); unfold aliens_above_player; simpl.
  - split_and!; [assumption | | intros Hover].
    + elementwise a Ha. specialize (Hlow a Ha). lia.
    + apply orb_false_iff in Hover as [Hgo Hex].
      apply existsb_false_Forall in Hex. rewrite !Forall_fmap in Hex.
      rewrite Forall_forall in Hex.
      elementwise a Ha. specialize (Hex a Ha).
      unfold compose, shifted, lowered in Hex. simpl in Hex. lia.
  - split_and!; [assumption | | intros Hgo].
    + elementwise a Ha. specialize (Hlow a Ha). lia.
    + specialize (Habove Hgo). rewrite Forall_forall in Habove.
      elementwise a Ha. specialize (Habove a Ha). lia.
Qed.

Lemma above_wave (h w : Z) :
  13 <= h -> Forall (fun a => 2 <= Alien.y a < h - 2) (wave w).
Proof. intros Hh. apply wave_Forall. intros r c Hr Hc. simpl. lia. Qed.

Lemma above_kept (h : Z) : 13 <= h -> kept (aliens_above_player h).
Proof.
  intros Hh13. unfold kept. split_and!.
  - intros k s s' (Hpy & Hlow & Habove) Hin.
    destruct (handle_input_frame k s s' Hin) as (Ey & _).
    destruct (handle_input_keeps k s s' Hin)
      as (Ea & _ & _ & _ & _ & _ & Eg & _).
    unfold aliens_above_player. rewrite Ea, Eg, Ey. auto.
  - apply above_march.
  - intros s (Hpy & Hlow & Habove). unfold aliens_above_player. simpl.
    rewrite !Forall_fmap. auto.
  - intros ev s Hs. unfold aliens_fire.
    destruct (bool_decide _); [exact Hs|].
    destruct (fire_roll ev); [|exact Hs].
    destruct (aliens s !! _); exact Hs.
  - intros s Hs. exact Hs.
  - intros s (Hpy & Hlow & Habove).
    destruct (resolve_collisions_keeps s)
      as (_ & Sa & _ & Ep & _ & _ & _ & _ & Eg & _).
    unfold aliens_above_player. rewrite Ep, Eg.
    split_and!; [assumption | | intros Hgo];
      eapply Forall_of_sublist; eauto.
  - intros s (Hpy & Hlow & Habove). unfold aliens_above_player. simpl.
    rewrite player_hit_loop_spec. split_and!; [assumption..|].
    intros Hover. apply orb_false_iff in Hover as [Hgo _]. auto.
  - intros s Hs. destruct (aliens s) as [|a als] eqn:Ha.
    + rewrite level_cleared_empty by exact Ha.
      destruct Hs as (Hpy & _). unfold aliens_above_player.
      cbn [player aliens game_over].
      pose proof (above_wave h (width s) Hh13) as Hwave.
      split_and!; [assumption | | intros _];
        (eapply Forall_impl; [exact Hwave|]); intros b Hb; simpl in Hb; lia.
    + rewrite level_cleared_nonempty by (rewrite Ha; discriminate). exact Hs.
Qed.

Lemma above_init (h w : Z) :
  13 <= h -> aliens_above_player h (GameState_init h w).
Proof.
  intros Hh13. unfold GameState_init. rewrite init_aliens_wave.
  unfold aliens_above_player, set_aliens.
  cbn [player aliens game_over app Player.y Player.init].
  pose proof (above_wave h w Hh13) as Hwave.
  split_and!; [reflexivity | | intros _];
    (eapply Forall_impl; [exact Hwave|]); intros b Hb; simpl in Hb; lia.
Qed.

Lemma session_above_player (h w : Z) (evs : list Event) :
  13 <= h ->
  Forall (aliens_above_player h) (session_states evs (GameState_init h w)).
Proof.
  intros Hh13. apply kept_session;
    [now apply above_kept | now apply above_init].
Qed.

Lemma player_kept_by_frame (f : GameState -> GameState) (s : GameState) :
  section_frame f -> player_in_field s -> player_in_field (f s).
Proof.
  intros Hf [Hmx Hx]. destruct (Hf s) as (Hp & _ & Hw & _).
  unfold player_in_field. rewrite Hp, Hw. auto.
Qed.

Lemma player_kept : kept player_in_field.
Proof.
  unfold kept. split_and!.
  - intros k s s' [Hmx Hx] Hin.
    destruct (handle_input_keeps k s s' Hin)
      as (_ & _ & _ & _ & _ & _ & _ & _ & Ew & Ep & _).
    unfold player_in_field. rewrite Ew.
    destruct Ep as [-> | [dx ->]]; [auto|].
    split; [exact Hmx|]. rewrite <- Hmx. apply move_in_range. lia.
  - intros s. apply player_kept_by_frame, advance_aliens_frame.
  - intros s. apply player_kept_by_frame, animate_aliens_frame.
  - intros ev s. apply player_kept_by_frame, aliens_fire_frame.
  - intros s. apply player_kept_by_frame, update_lasers_frame.
  - intros s. apply player_kept_by_frame, resolve_collisions_frame.
  - intros s. apply player_kept_by_frame, alien_lasers_hit_frame.
  - intros s. apply player_kept_by_frame, level_cleared_frame.
Qed.

Lemma player_init (h w : Z) : 3 <= w -> player_in_field (GameState_init h w).
Proof.
  intros Hw3. unfold GameState_init. rewrite init_aliens_wave.
  unfold player_in_field. simpl. split; [reflexivity|].
  pose proof (Z.div_mod w 2 ltac:(lia)).
  pose proof (Z.mod_pos_bound w 2 ltac:(lia)). lia.
Qed.

Lemma session_player_in_field (h w : Z) (evs : list Event) :
  3 <= w ->
  Forall player_in_field (session_states evs (GameState_init h w)).
Proof.
  intros Hw3. apply kept_session; [exact player_kept | now apply player_init].
Qed.

(** ** Further properties of the sprites and of the sections *)

(** X1. [Alien.animate] moves nothing and always lands on a frame index
    0..3 whose character is one of [FRAMES]; an alien whose character and
    frame agree is back to itself after four calls. *)
Theorem X1_animate_cycle (a : Alien.t) :
  0 <= Alien.frame (Alien.animate a) < 4 /\
  Alien.char (Alien.animate a) ∈ Alien.FRAMES /\
  Alien.char (Alien.animate a) =
    Alien.frame_char (Alien.frame (Alien.animate a)) /\
  Alien.x (Alien.animate a) = Alien.x a /\
  Alien.y (Alien.animate a) = Alien.y a /\
  (0 <= Alien.frame a < 4 ->
   Alien.char a = Alien.frame_char (Alien.frame a) ->
   Alien.animate (Alien.animate (Alien.animate (Alien.animate a))) = a).
Proof.
  unfold Alien.animate at 1 2 3 4 5 6.
  cbn [Alien.frame Alien.char Alien.x Alien.y].
  change (Z.of_nat (length Alien.FRAMES)) with 4.
  remember ((Alien.frame a + 1) mod 4) as f' eqn:Ef.
  assert (Hm : 0 <= f' < 4) by (subst f'; apply Z.mod_pos_bound; lia).
  split_and!; try reflexivity; try lia.
  - assert (Hc : f' = 0 \/ f' = 1 \/ f' = 2 \/ f' = 3) by lia.
    destruct Hc as [E | [E | [E | E]]]; rewrite E; vm_compute;
      repeat first [apply list_elem_of_here | apply list_elem_of_further].
  - clear. destruct a as [x y c f]. cbn [Alien.frame Alien.char].
    intros Hf ->.
    assert (Hc : f = 0 \/ f = 1 \/ f = 2 \/ f = 3) by lia.
    destruct Hc as [-> | [-> | [-> | ->]]]; reflexivity.
Qed.

Lemma X1_animate_cycle_witness :
  let a := Alien.mk 18 2 "V" 1 in
  Alien.animate (Alien.animate (Alien.animate (Alien.animate a))) = a.
Proof.
  apply (proj2 (proj2 (proj2 (proj2 (proj2
           (X1_animate_cycle (Alien.mk 18 2 "V" 1))))))); simpl;
    [lia | reflexivity].
Defined.

(** X2. Away from the borders a step left and a step right undo each
    other; on the leftmost column a step left, and on the rightmost a step
    right, leave the player where it is. *)
Theorem X2_move_round_trip (p : Player.t) :
  1 <= Player.x p <= Player.max_x p - 2 ->
  (2 <= Player.x p -> Player.move (Player.move p (-1)) 1 = p) /\
  (Player.x p <= Player.max_x p - 3 ->
   Player.move (Player.move p 1) (-1) = p) /\
  (Player.x p = 1 -> Player.move p (-1) = p) /\
  (Player.x p = Player.max_x p - 2 -> Player.move p 1 = p).
Proof.
  destruct p as [x y c mx]. unfold Player.move. simpl. intros Hx.
  split_and!; intros H; f_equal; lia.
Qed.

Lemma X2_move_round_trip_witness :
  let p := Player.init 1 22 80 in
  (2 <= Player.x p -> Player.move (Player.move p (-1)) 1 = p) /\
  (Player.x p <= Player.max_x p - 3 ->
   Player.move (Player.move p 1) (-1) = p) /\
  (Player.x p = 1 -> Player.move p (-1) = p) /\
  (Player.x p = Player.max_x p - 2 -> Player.move p 1 = p).
Proof. apply (X2_move_round_trip (Player.init 1 22 80)). simpl. lia. Defined.

(** X3. The aliens shoot only when there is an alien and the roll
    succeeds; then exactly one laser going down is appended to the alien
    lasers, on the cell below the alien drawn from the list, and nothing
    else changes. *)
Theorem X3_aliens_fire (ev : Event) (s : GameState) :
  (aliens s = [] \/ fire_roll ev = false -> aliens_fire ev s = s) /\
  (aliens s <> [] -> fire_roll ev = true ->
   exists shooter : Alien.t,
     aliens s !! (fire_pick ev mod length (aliens s))%nat = Some shooter /\
     aliens_fire ev s =
     set_alien_lasers s
       (alien_lasers s ++
        [Laser.mk (Alien.x shooter) (Alien.y shooter + 1) "|" 1])).
Proof.
  unfold aliens_fire. split.
  - intros [Ha | Hr].
    + now rewrite bool_decide_eq_true_2.
    + rewrite Hr. now destruct (bool_decide _).
  - intros Ha Hr. rewrite bool_decide_eq_false_2 by exact Ha. rewrite Hr.
    destruct (lookup_lt_is_Some_2 (aliens s)
                (fire_pick ev mod length (aliens s))%nat) as [shooter Hs].
    { apply Nat.mod_upper_bound. destruct (aliens s); [congruence|]. simpl. lia. }
    exists shooter. rewrite Hs. split; reflexivity.
Qed.

Lemma X3_aliens_fire_witness :
  let s := mkState 24 80 (Player.init 40 22 80)
                   [Alien.init 18 2; Alien.init 22 2] [] [] 1 0 0 1 false in
  exists shooter : Alien.t,
    aliens s !! (7 mod length (aliens s))%nat = Some shooter /\
    aliens_fire (mkEvent NO_KEY false false true 7) s =
    set_alien_lasers s
      (alien_lasers s ++
       [Laser.mk (Alien.x shooter) (Alien.y shooter + 1) "|" 1]).
Proof.
  apply (proj2 (X3_aliens_fire (mkEvent NO_KEY false false true 7)
           (mkState 24 80 (Player.init 40 22 80)
                    [Alien.init 18 2; Alien.init 22 2] [] [] 1 0 0 1 false)));
    [discriminate | reflexivity].
Defined.

Lemma update_unfold (ev : Event) (s : GameState) :
  update ev s =
  level_cleared (alien_lasers_hit (resolve_collisions (update_lasers
    (aliens_fire ev
       (if anim_due ev
        then animate_aliens (if march_due ev then advance_aliens s else s)
        else if march_due ev then advance_aliens s else s))))).
Proof. reflexivity. Qed.

(** X4. An iteration with no recognised key, no march or animation due, no
    alien shot and no laser in flight leaves the state exactly as it was. *)
Theorem X4_idle_iteration (ev : Event) (s : GameState) :
  key ev <> ord_q -> key ev <> ord_Q ->
  key ev <> KEY_LEFT -> key ev <> KEY_RIGHT ->
  key ev <> ord_space -> key ev <> ord_z ->
  march_due ev = false -> anim_due ev = false -> fire_roll ev = false ->
  player_lasers s = [] -> alien_lasers s = [] -> aliens s <> [] ->
  handle_input (key ev) s = Some s /\ update ev s = s.
Proof.
  intros Hq HQ Hl Hr Hsp Hz Hm Ha Hf Hpl Hal Hne. split.
  - unfold handle_input.
    replace ((key ev =? ord_q) || (key ev =? ord_Q)) with false
      by (symmetry; apply orb_false_iff; lia).
    replace (key ev =? KEY_LEFT) with false by lia.
    replace (key ev =? KEY_RIGHT) with false by lia.
    replace ((key ev =? ord_space) || (key ev =? ord_z)) with false
      by (symmetry; apply orb_false_iff; lia).
    reflexivity.
  - rewrite update_unfold, Hm, Ha.
    assert (E1 : aliens_fire ev s = s).
    { unfold aliens_fire. rewrite Hf. now destruct (bool_decide _). }
    assert (E2 : update_lasers s = s).
    { unfold update_lasers. rewrite Hpl. simpl. rewrite Hal. simpl.
      destruct s; simpl in *; subst; reflexivity. }
    assert (E3 : resolve_collisions s = s).
    { unfold resolve_collisions. rewrite Hpl. simpl.
      destruct s; simpl in *; subst; reflexivity. }
    assert (E4 : alien_lasers_hit s = s).
    { unfold alien_lasers_hit. rewrite Hal. simpl. now destruct s. }
    rewrite E1, E2, E3, E4. now apply level_cleared_nonempty.
Qed.

Lemma X4_idle_iteration_witness :
  let s := mkState 24 80 (Player.init 40 22 80) [Alien.init 18 2]
                   [] [] 1 0 0 1 false in
  let ev := mkEvent NO_KEY false false false 0 in
  handle_input (key ev) s = Some s /\ update ev s = s.
Proof.
  apply (X4_idle_iteration (mkEvent NO_KEY false false false 0)
           (mkState 24 80 (Player.init 40 22 80) [Alien.init 18 2]
                    [] [] 1 0 0 1 false));
    first [reflexivity | discriminate].
Defined.

Lemma level_cleared_aliens (s : GameState) : aliens (level_cleared s) <> [].
Proof.
  destruct (aliens s) as [|a als] eqn:Ha.
  - rewrite level_cleared_empty by exact Ha. cbn [aliens].
    intros E. apply (f_equal length) in E. now rewrite wave_length in E.
  - rewrite level_cleared_nonempty by (rewrite Ha; discriminate).
    rewrite Ha. discriminate.
Qed.

(** X5. The wave check does nothing while an alien is left.  With none
    left it raises the level by one, spawns the wave of 55 for the field
    width and empties both laser lists, keeping the player, the score, the
    march direction and the game-over flag.  Checking twice is the same as
    checking once. *)
Theorem X5_level_cleared (s : GameState) :
  (aliens s <> [] -> level_cleared s = s) /\
  (aliens s = [] ->
   level_cleared s =
   mkState (height s) (width s) (player s) (wave (width s)) [] []
           (alien_dir s) (tick s) (score s) (level s + 1) (game_over s)) /\
  length (wave (width s)) = 55%nat /\
  level_cleared (level_cleared s) = level_cleared s.
Proof.
  split_and!.
  - apply level_cleared_nonempty.
  - apply level_cleared_empty.
  - apply wave_length.
  - apply level_cleared_nonempty, level_cleared_aliens.
Qed.

Lemma X5_level_cleared_witness :
  let s := mkState 24 80 (Player.init 37 22 80) []
                   [Laser.init 37 9 (-1)] [Laser.init 20 15 1]
                   (-1) 0 550 1 true in
  level_cleared s =
  mkState 24 80 (Player.init 37 22 80) (wave 80) [] [] (-1) 0 550 2 true.
Proof.
  apply (proj1 (proj2 (X5_level_cleared
           (mkState 24 80 (Player.init 37 22 80) []
                    [Laser.init 37 9 (-1)] [Laser.init 20 15 1]
                    (-1) 0 550 1 true)))).
  reflexivity.
Defined.

Lemma main_loop_aliens (evs : list Event) : forall s : GameState,
  aliens s <> [] -> aliens (main_loop evs s).1.2 <> [].
Proof.
  induction evs as [|ev rest IH]; intros s Hs; [exact Hs|].
  rewrite main_loop_cons.
  destruct (game_over s); [exact Hs|].
  destruct (handle_input (key ev) s) as [s1|]; [|exact Hs].
  assert (Hu : aliens (update ev s1) <> []).
  { rewrite update_unfold. apply level_cleared_aliens. }
  specialize (IH (update ev s1) Hu).
  now destruct (main_loop rest (update ev s1)) as [[e s3] calls].
Qed.

(** X6. Whatever the state, an iteration ends with at least one alien on
    the field (a cleared wave is replaced in the same iteration); so does
    the construction of the state, and so the loop never starts an
    iteration, and is never left, without aliens. *)
Theorem X6_aliens_never_empty :
  (forall (ev : Event) (s : GameState), aliens (update ev s) <> []) /\
  (forall h w : Z, length (aliens (GameState_init h w)) = 55%nat) /\
  (forall (h w : Z) (evs : list Event), aliens (play h w evs).1.2 <> []).
Proof.
  split_and!.
  - intros ev s. rewrite update_unfold. apply level_cleared_aliens.
  - intros h w. unfold GameState_init. rewrite init_aliens_wave.
    apply wave_length.
  - intros h w evs. unfold play.
    assert (H0 : aliens (GameState_init h w) <> []).
    { unfold GameState_init. rewrite init_aliens_wave.
      unfold set_aliens. cbn [aliens app].
      intros E. apply (f_equal length) in E. now rewrite wave_length in E. }
    pose proof (main_loop_aliens evs _ H0) as H.
    now destruct (main_loop evs (GameState_init h w)) as [[e s] frames].
Qed.

(** ** Properties of whole sessions *)

(** X7. Along a session, section after section and iteration after
    iteration, a raised game-over flag is never lowered and neither the
    score nor the level ever goes down: every state is no earlier than all
    the states before it.  In particular the state in which [play] leaves
    the loop is no earlier than the initial one. *)
Theorem X7_session_order (h w : Z) (evs : list Event) :
  StronglySorted no_earlier (session_states evs (GameState_init h w)) /\
  no_earlier (GameState_init h w) (play h w evs).1.2.
Proof.
  split.
  - apply session_ordered.
    + exact no_earlier_refl.
    + exact no_earlier_trans.
    + exact no_earlier_input.
    + exact no_earlier_sections.
  - pose proof (session_after_start no_earlier no_earlier_refl
                  no_earlier_trans no_earlier_input no_earlier_sections
                  evs (GameState_init h w)) as Hall.
    rewrite Forall_forall in Hall.
    pose proof (main_loop_in_session evs (GameState_init h w)) as Hin.
    unfold play.
    destruct (main_loop evs (GameState_init h w)) as [[e s] frames].
    apply Hall, Hin.
Qed.

(** X8. In every state of a session each player laser points up
    ([dir = -1]) and each alien laser points down ([dir = 1]), and all
    are drawn as the vertical bar. *)
Theorem X8_laser_directions (h w : Z) (evs : list Event) :
  Forall (fun s =>
            Forall (fun l => Laser.dir l = -1 /\ Laser.char l = "|"%string)
                   (player_lasers s) /\
            Forall (fun l => Laser.dir l = 1 /\ Laser.char l = "|"%string)
                   (alien_lasers s))
         (session_states evs (GameState_init h w)).
Proof.
  eapply Forall_impl; [apply session_well_formed|].
  intros s (_ & _ & _ & _ & _ & _ & Hpl & Hal & _). split; assumption.
Qed.

(** X9. In every state of a session there are at most 55 aliens and they
    all show the same animation frame, an index 0..3, each with the
    character of that frame. *)
Theorem X9_aliens_in_step (h w : Z) (evs : list Event) :
  Forall (fun s =>
            (length (aliens s) <= 55)%nat /\
            exists f : Z,
              0 <= f < 4 /\
              Forall (fun a => Alien.frame a = f /\
                               Alien.char a = Alien.frame_char f)
                     (aliens s))
         (session_states evs (GameState_init h w)).
Proof.
  eapply Forall_impl; [apply session_well_formed|].
  intros s (_ & _ & _ & _ & _ & _ & _ & _ & Hf & Hlen & _). split; assumption.
Qed.

(** X10. In every state of a session the field has the size read at the
    start, the player's [max_x] is the field width, [tick] is still 0, the
    march direction is 1 or -1, the score is a non-negative multiple of 10
    and the level is at least 1. *)
Theorem X10_session_constants (h w : Z) (evs : list Event) :
  Forall (fun s =>
            height s = h /\ width s = w /\
            Player.max_x (player s) = w /\ tick s = 0 /\
            (alien_dir s = 1 \/ alien_dir s = -1) /\
            0 <= score s /\ score s mod 10 = 0 /\ 1 <= level s)
         (session_states evs (GameState_init h w)).
Proof.
  eapply Forall_impl; [apply session_well_formed|].
  intros s (Hh & Hw & Ht & Hmx & _ & Hd & _ & _ & _ & _ & Hs0 & Hs10 & Hlv).
  split_and!; assumption.
Qed.

(** X11. On a field at least 3 columns wide the player is inside the side
    borders, in columns 1 to [width - 2], in every state of a session. *)
Theorem X11_player_stays_in_field (h w : Z) (evs : list Event) :
  3 <= w ->
  Forall (fun s => 1 <= Player.x (player s) <= w - 2)
         (session_states evs (GameState_init h w)).
Proof.
  intros Hw3.
  pose proof (session_player_in_field h w evs Hw3) as Hp.
  pose proof (session_well_formed h w evs) as Hwf.
  rewrite Forall_forall in Hp, Hwf. apply Forall_forall. intros s Hs.
  destruct (Hp s Hs) as [_ Hx]. destruct (Hwf s Hs) as (_ & Hw & _).
  now rewrite Hw in Hx.
Qed.

Lemma X11_player_stays_in_field_witness :
  Forall (fun s => 1 <= Player.x (player s) <= 3 - 2)
         (session_states [mkEvent KEY_LEFT true false false 0;
                          mkEvent KEY_RIGHT false true true 3]
                         (GameState_init 24 3)).
Proof.
  apply (X11_player_stays_in_field 24 3
           [mkEvent KEY_LEFT true false false 0;
            mkEvent KEY_RIGHT false true true 3]).
  lia.
Defined.

(** X12. On a field at least 48 columns wide the aliens never leave the
    columns 1 to [width - 2]: in every state of a session each alien is
    inside the side borders, and none stands on the margin the wave is
    marching towards. *)
Theorem X12_aliens_stay_in_field (h w : Z) (evs : list Event) :
  48 <= w ->
  Forall (fun s =>
            Forall (fun a => 1 <= Alien.x a <= w - 2) (aliens s) /\
            (alien_dir s = 1 ->
             Forall (fun a => Alien.x a <= w - 3) (aliens s)) /\
            (alien_dir s = -1 ->
             Forall (fun a => 2 <= Alien.x a) (aliens s)))
         (session_states evs (GameState_init h w)).
Proof.
  intros Hw48. eapply Forall_impl; [apply (session_in_field w h evs Hw48)|].
  intros s (_ & _ & H1 & H2 & H3). split_and!; assumption.
Qed.

Lemma X12_aliens_stay_in_field_witness :
  Forall (fun s =>
            Forall (fun a => 1 <= Alien.x a <= 48 - 2) (aliens s) /\
            (alien_dir s = 1 ->
             Forall (fun a => Alien.x a <= 48 - 3) (aliens s)) /\
            (alien_dir s = -1 ->
             Forall (fun a => 2 <= Alien.x a) (aliens s)))
         (session_states [mkEvent NO_KEY true false false 0;
                          mkEvent NO_KEY true false false 0;
                          mkEvent NO_KEY true false false 0]
                         (GameState_init 24 48)).
Proof.
  apply (X12_aliens_stay_in_field 24 48
           [mkEvent NO_KEY true false false 0;
            mkEvent NO_KEY true false false 0;
            mkEvent NO_KEY true false false 0]).
  lia.
Defined.

(** X13. On a field at least 13 rows high, in every state of a session the
    aliens are at row 2 or below, and as long as the game-over flag is not
    set every alien is strictly above the player's row: the march cannot
    bring an alien down to the player without ending the game. *)
Theorem X13_aliens_above_player (h w : Z) (evs : list Event) :
  13 <= h ->
  Forall (fun s =>
            Forall (fun a => 2 <= Alien.y a) (aliens s) /\
            (game_over s = false ->
             Forall (fun a => Alien.y a < Player.y (player s)) (aliens s)))
         (session_states evs (GameState_init h w)).
Proof.
  intros Hh13.
  eapply Forall_impl; [apply (session_above_player h w evs Hh13)|].
  intros s (Hpy & H1 & H2). rewrite Hpy. split; assumption.
Qed.

Lemma X13_aliens_above_player_witness :
  Forall (fun s =>
            Forall (fun a => 2 <= Alien.y a) (aliens s) /\
            (game_over s = false ->
             Forall (fun a => Alien.y a < Player.y (player s)) (aliens s)))
         (session_states [mkEvent NO_KEY true false false 0;
                          mkEvent NO_KEY true false false 0]
                         (GameState_init 13 48)).
Proof.
  apply (X13_aliens_above_player 13 48
           [mkEvent NO_KEY true false false 0;
            mkEvent NO_KEY true false false 0]).
  lia.
Defined.

(** ** More on collisions *)

Lemma scan_aliens_None (laser : Laser.t) (als : list Alien.t) :
  scan_aliens laser als = None <->
  Forall (fun a => hit laser a = false) als.
Proof.
  induction als as [|a als IH]; simpl.
  - split; [constructor | reflexivity].
  - rewrite Forall_cons. destruct (hit laser a).
    + split; [discriminate | intros [? _]; discriminate].
    + rewrite <- IH. destruct (scan_aliens laser als); simpl;
        split; try discriminate; intuition congruence.
Qed.

Lemma collide_loop_disjoint (ls : list Laser.t) :
  forall (als : list Alien.t) (sc : Z),
    Forall (fun l => Forall (fun a => hit l a = false)
                            (collide_loop ls als sc).1.2)
           (collide_loop ls als sc).1.1.
Proof.
  induction ls as [|l ls IH]; intros als sc; simpl; [constructor|].
  destruct (scan_aliens l als) as [als'|] eqn:Hscan; [apply IH|].
  apply scan_aliens_None in Hscan.
  specialize (IH als sc).
  destruct (collide_loop_account ls als sc) as (_ & _ & _ & _ & _ & Hsub).
  destruct (collide_loop ls als sc) as [[ls' als'] sc']. simpl in *.
  constructor; [|exact IH]. eapply Forall_of_sublist; eauto.
Qed.

Lemma collide_loop_miss (ls : list Laser.t) (als : list Alien.t) (sc : Z) :
  Forall (fun l => Forall (fun a => hit l a = false) als) ls ->
  collide_loop ls als sc = (ls, als, sc).
Proof.
  induction 1 as [|l ls Hl _ IH]; simpl; [reflexivity|].
  apply scan_aliens_None in Hl. now rewrite Hl, IH.
Qed.

(** X14. After the collision pass no player laser that is left shares a
    cell with an alien that is left. *)
Theorem X14_no_overlap_after_collisions (s : GameState) :
  Forall (fun l =>
            Forall (fun a => ~ (Laser.x l = Alien.x a /\ Laser.y l = Alien.y a))
                   (aliens (resolve_collisions s)))
         (player_lasers (resolve_collisions s)).
Proof.
  unfold resolve_collisions.
  pose proof (collide_loop_disjoint (player_lasers s) (aliens s) (score s)) as H.
  destruct (collide_loop (player_lasers s) (aliens s) (score s))
    as [[ls als] sc]. simpl in *.
  eapply Forall_impl; [exact H|]. intros l Hl.
  eapply Forall_impl; [exact Hl|]. intros a Ha [Hx Hy].
  unfold hit in Ha. rewrite Hx, Hy, !Z.eqb_refl in Ha. discriminate.
Qed.

(** X15. When no player laser is on the cell of an alien (in particular
    when no laser is in flight) the collision pass changes nothing: no
    removal and no score. *)
Theorem X15_collisions_without_hit (s : GameState) :
  Forall (fun l =>
            Forall (fun a => Laser.x l <> Alien.x a \/ Laser.y l <> Alien.y a)
                   (aliens s))
         (player_lasers s) ->
  resolve_collisions s = s.
Proof.
  intros H. unfold resolve_collisions. rewrite collide_loop_miss.
  - now destruct s.
  - eapply Forall_impl; [exact H|]. intros l Hl.
    eapply Forall_impl; [exact Hl|]. intros a Ha. unfold hit.
    apply andb_false_iff. destruct Ha; [left | right]; lia.
Qed.

Lemma X15_collisions_without_hit_witness :
  let s := mkState 24 80 (Player.init 40 22 80)
                   [Alien.init 10 5; Alien.init 14 7]
                   [Laser.init 10 7 (-1); Laser.init 14 5 (-1)] []
                   1 0 30 1 false in
  resolve_collisions s = s.
Proof.
  apply (X15_collisions_without_hit
           (mkState 24 80 (Player.init 40 22 80)
                    [Alien.init 10 5; Alien.init 14 7]
                    [Laser.init 10 7 (-1); Laser.init 14 5 (-1)] []
                    1 0 30 1 false)).
  simpl. repeat constructor; simpl; lia.
Defined.

(** ** More on leaving the loop *)

(** X16. On a window of at least 3 rows and 33 columns (where curses
    accepts the texts [play] writes), leaving the loop by a quit key is
    followed by the same three statements as a game over: input is
    switched to blocking, the GAME OVER message is written on row [h / 2]
    from column [(w - 33) / 2], inside the window, and one key is waited
    for; the game-over flag itself stays unset. *)
Theorem X16_quit_shows_game_over_screen (h w : Z) (evs : list Event) :
  3 <= h -> 33 <= w ->
  (play h w evs).1.1 = QuitKey ->
  game_over (play h w evs).1.2 = false /\
  (exists drawn : list GameState,
     (play h w evs).2 =
     [CursSet 0; NoDelay true; SetTimeout 0] ++ (DrawFrame <$> drawn) ++
     [NoDelay false; AddStr (h / 2) ((w - 33) / 2) msg; GetCh]) /\
  0 <= h / 2 < h - 1 /\
  0 <= (w - 33) / 2 /\ (w - 33) / 2 + py_len msg <= w.
Proof.
  intros Hh3 Hw33 Hq. split; [|split; [|split]].
  - pose proof (main_loop_flag evs (GameState_init h w)) as Hflag.
    unfold play in *.
    destruct (main_loop evs (GameState_init h w)) as [[e s] frames].
    simpl in *. subst e. destruct (game_over s); [|reflexivity].
    destruct Hflag as [_ Hflag]. now specialize (Hflag eq_refl).
  - apply play_after_loop. rewrite Hq. discriminate.
  - pose proof (Z.div_mod h 2 ltac:(lia)).
    pose proof (Z.mod_pos_bound h 2 ltac:(lia)). lia.
  - rewrite py_len_msg.
    pose proof (Z.div_mod (w - 33) 2 ltac:(lia)).
    pose proof (Z.mod_pos_bound (w - 33) 2 ltac:(lia)). lia.
Qed.

Lemma X16_quit_shows_game_over_screen_witness :
  let evs := [mkEvent NO_KEY true true false 0;
              mkEvent ord_q false false false 0] in
  game_over (play 24 80 evs).1.2 = false /\
  (exists drawn : list GameState,
     (play 24 80 evs).2 =
     [CursSet 0; NoDelay true; SetTimeout 0] ++ (DrawFrame <$> drawn) ++
     [NoDelay false; AddStr (24 / 2) ((80 - 33) / 2) msg; GetCh]) /\
  0 <= 24 / 2 < 24 - 1 /\
  0 <= (80 - 33) / 2 /\ (80 - 33) / 2 + py_len msg <= 80.
Proof.
  apply (X16_quit_shows_game_over_screen 24 80
           [mkEvent NO_KEY true true false 0;
            mkEvent ord_q false false false 0]); [lia | lia |].
  vm_compute. reflexivity.
Defined.




(** X18. Once the loop has been left, by a quit key or by the game-over
    flag, events that would follow are not read: they change neither the
    final state nor what was drawn. *)
Theorem X18_nothing_after_exit (evs more : list Event) (s : GameState) :
  (main_loop evs s).1.1 <> StillRunning ->
  main_loop (evs ++ more) s = main_loop evs s.
Proof.
  revert s. induction evs as [|ev rest IH]; intros s He.
  - simpl in He. destruct (game_over s) eqn:Hg; [|congruence].
    destruct more as [|ev more]; simpl; now rewrite Hg.
  - rewrite <- app_comm_cons, !main_loop_cons.
    rewrite main_loop_cons in He.
    destruct (game_over s); [reflexivity|].
    destruct (handle_input (key ev) s) as [s1|]; [|reflexivity].
    rewrite IH; [reflexivity|].
    now destruct (main_loop rest (update ev s1)) as [[e s3] calls].
Qed.

Lemma X18_nothing_after_exit_witness :
  let s := GameState_init 24 80 in
  let evs := [mkEvent ord_Q false false false 0] in
  let more := [mkEvent KEY_LEFT true true true 5] in
  main_loop (evs ++ more) s = main_loop evs s.
Proof.
  apply (X18_nothing_after_exit [mkEvent ord_Q false false false 0]
           [mkEvent KEY_LEFT true true true 5] (GameState_init 24 80)).
  vm_compute. discriminate.
Defined.

(** X19. On a window of at least 3 rows and 33 columns the GAME OVER
    message, 33 characters long, is written on row [height // 2], which is
    inside the window and not its last row, from the column
    [(width - 33) // 2]; it starts and ends inside the window, and that
    column centres it: the free columns to its right are as many as those
    to its left, or one more. *)
Theorem X19_message_centred (s : GameState) :
  3 <= height s -> 33 <= width s ->
  py_len msg = 33 /\
  game_over_screen s =
    [NoDelay false;
     AddStr (height s / 2) ((width s - 33) / 2) msg;
     GetCh] /\
  0 <= height s / 2 < height s - 1 /\
  0 <= (width s - 33) / 2 /\
  (width s - 33) / 2 + py_len msg <= width s /\
  0 <= (width s - ((width s - 33) / 2 + py_len msg)) - (width s - 33) / 2 <= 1.
Proof.
  intros Hh3 Hw33.
  pose proof (Z.div_mod (height s) 2 ltac:(lia)).
  pose proof (Z.mod_pos_bound (height s) 2 ltac:(lia)).
  pose proof (Z.div_mod (width s - 33) 2 ltac:(lia)).
  pose proof (Z.mod_pos_bound (width s - 33) 2 ltac:(lia)).
  split; [apply py_len_msg|].
  split; [unfold game_over_screen; now rewrite py_len_msg|].
  rewrite py_len_msg. lia.
Qed.

Lemma X19_message_centred_witness :
  let s := GameState_init 24 80 in
  py_len msg = 33 /\
  game_over_screen s =
    [NoDelay false;
     AddStr (height s / 2) ((width s - 33) / 2) msg;
     GetCh] /\
  0 <= height s / 2 < height s - 1 /\
  0 <= (width s - 33) / 2 /\
  (width s - 33) / 2 + py_len msg <= width s /\
  0 <= (width s - ((width s - 33) / 2 + py_len msg)) - (width s - 33) / 2 <= 1.
Proof.
  apply (X19_message_centred (GameState_init 24 80));
    vm_compute; discriminate.
Defined.

(** X20. For every field width the wave is the same grid shifted
    sideways: the alien of row [r] and column [c] is the one at index
    [11 r + c], at [x = x_margin + 4 c] and [y = 2 + 2 r] with
    [x_margin = (width - 44) // 2], showing frame 0; the block of eleven
    4-column cells is centred to within one column. *)
Theorem X20_wave_layout (s : GameState) :
  let x_margin := (width s - 44) / 2 in
  (forall r c : nat, (r < 5)%nat -> (c < 11)%nat ->
     aliens (init_aliens (set_aliens s [])) !! (r * 11 + c)%nat =
     Some (Alien.mk (x_margin + Z.of_nat c * 4) (2 + Z.of_nat r * 2) "/" 0)) /\
  0 <= (width s - (x_margin + 44)) - x_margin <= 1 /\
  aliens (init_aliens s) = aliens s ++ aliens (init_aliens (set_aliens s [])).
Proof.
  intros x_margin. rewrite !init_aliens_wave.
  unfold set_aliens. cbn [aliens width app]. split; [|split].
  - unfold wave. fold x_margin. generalize x_margin. clear. intros xm r c Hr Hc.
    do 5 (destruct r as [|r];
          [do 11 (destruct c as [|c]; [vm_compute; reflexivity|]);
           exfalso; clear -Hc; lia|]).
    lia.
  - subst x_margin.
    pose proof (Z.div_mod (width s - 44) 2 ltac:(lia)).
    pose proof (Z.mod_pos_bound (width s - 44) 2 ltac:(lia)). lia.
  - reflexivity.
Qed.

(** ** Everything drawn is inside the window *)

Lemma field_kept (h w : Z) :
  48 <= w -> 13 <= h -> kept (field_invariant h w).
Proof.
  intros Hw Hh.
  exact (kept_and _ _ (wf_kept h w)
           (kept_and _ _ (in_field_kept w Hw)
              (kept_and _ _ (above_kept h Hh) player_kept))).
Qed.

Lemma update_player_lasers_bounds (h w : Z) (ls : list Laser.t) :
  Forall (laser_ok (-1)) ls ->
  Forall (fun l => 1 <= Laser.x l <= w - 2 /\ 2 <= Laser.y l <= h - 3) ls ->
  Forall (fun l => 1 <= Laser.x l <= w - 2 /\ 2 <= Laser.y l <= h - 3)
         (update_player_lasers ls).
Proof.
  induction 1 as [|l ls [Hd _] _ IH]; intros Hb; simpl; [constructor|].
  apply Forall_cons in Hb as [Hl Hb].
  destruct (Z.leb_spec (Laser.y l + Laser.dir l) 1); [auto|].
  constructor; [simpl; lia | auto].
Qed.

Lemma update_alien_lasers_bounds (h w : Z) (ls : list Laser.t) :
  Forall (laser_ok 1) ls ->
  Forall (fun l => 1 <= Laser.x l <= w - 2 /\ 3 <= Laser.y l) ls ->
  Forall (fun l => 1 <= Laser.x l <= w - 2 /\ 3 <= Laser.y l)
         (update_alien_lasers h ls).
Proof.
  induction 1 as [|l ls [Hd _] _ IH]; intros Hb; simpl; [constructor|].
  apply Forall_cons in Hb as [Hl Hb].
  destruct (Laser.y l + Laser.dir l >=? h - 1); [auto|].
  constructor; [simpl; lia | auto].
Qed.

Lemma update_alien_lasers_upper (h : Z) (ls : list Laser.t) :
  Forall (fun l => Laser.y l <= h - 2) (update_alien_lasers h ls).
Proof.
  induction ls as [|l ls IH]; simpl; [constructor|].
  destruct (Z.geb_spec (Laser.y l + Laser.dir l) (h - 1)); [exact IH|].
  constructor; [simpl; lia | exact IH].
Qed.

Lemma full_kept (h w : Z) :
  48 <= w -> 13 <= h ->
  kept (fun s => field_invariant h w s /\ lasers_in_field h w s).
Proof.
  intros Hw48 Hh13.
  destruct (field_kept h w Hw48 Hh13)
    as (F1 & F2 & F3 & F4 & F5 & F6 & F7 & F8).
  unfold kept. split_and!.
  - intros k s s' [Hf [Hpl Hal]] Hin. split; [eauto|].
    destruct Hf as (Hwf & _ & (Hpy & _) & (_ & Hpx)).
    destruct Hwf as (_ & Hw & _).
    destruct (handle_input_keeps k s s' Hin)
      as (_ & Eal & _ & _ & _ & _ & _ & _ & _ & _ & Epl).
    unfold lasers_in_field. rewrite Eal. split; [|exact Hal].
    destruct Epl as [-> | ->]; [exact Hpl|].
    apply Forall_app. split; [exact Hpl|].
    repeat constructor; simpl; lia.
  - intros s [Hf Hl]. split; [auto|].
    unfold lasers_in_field. rewrite advance_aliens_spec.
    now destruct (existsb _ _).
  - intros s [Hf Hl]. split; [auto|]. exact Hl.
  - intros ev s [Hf [Hpl Hal]]. split; [auto|].
    destruct Hf as (_ & (_ & _ & Hax & _) & (_ & Hay & _) & _).
    unfold aliens_fire.
    destruct (bool_decide _); [split; assumption|].
    destruct (fire_roll ev); [|split; assumption].
    destruct (aliens s !! _) as [shooter|] eqn:Hs; [|split; assumption].
    pose proof (Forall_lookup_1 _ _ _ _ Hax Hs) as Hx.
    pose proof (Forall_lookup_1 _ _ _ _ Hay Hs) as Hy.
    simpl in Hx, Hy.
    split; [exact Hpl|]. simpl. apply Forall_app. split; [exact Hal|].
    repeat constructor; simpl; lia.
  - intros s [Hf [Hpl Hal]]. split; [auto|].
    destruct Hf as ((_ & _ & _ & _ & _ & _ & Hdp & Hda & _) & _).
    unfold lasers_in_field, update_lasers. simpl. split.
    + now apply update_player_lasers_bounds.
    + now apply update_alien_lasers_bounds.
  - intros s [Hf [Hpl Hal]]. split; [auto|].
    destruct (resolve_collisions_keeps s) as (Sl & _ & _ & _ & Eal & _).
    unfold lasers_in_field. rewrite Eal. split; [|exact Hal].
    eapply Forall_of_sublist; eauto.
  - intros s [Hf Hl]. split; [auto|]. exact Hl.
  - intros s [Hf [Hpl Hal]]. split; [auto|].
    destruct (aliens s) as [|a als] eqn:Ha.
    + rewrite level_cleared_empty by exact Ha. split; constructor.
    + rewrite level_cleared_nonempty by (rewrite Ha; discriminate).
      split; assumption.
Qed.

Lemma march_low_enough (h : Z) (s : GameState) :
  Forall (fun a => Alien.y a < h - 2) (aliens s) ->
  Forall (fun a => Alien.y a <= h - 2) (aliens (advance_aliens s)).
Proof.
  intros H. rewrite Forall_forall in H. rewrite advance_aliens_spec.
  destruct (existsb _ _); simpl; elementwise a Ha; specialize (H a Ha); lia.
Qed.

Lemma aliens_fire_aliens (ev : Event) (s : GameState) :
  aliens (aliens_fire ev s) = aliens s /\
  height (aliens_fire ev s) = height s.
Proof.
  unfold aliens_fire. destruct (bool_decide _); [auto|].
  destruct (fire_roll ev); [|auto]. now destruct (aliens s !! _).
Qed.

(** The state an iteration ends in, when it started with the game on. *)
Lemma end_of_iteration (h w : Z) (ev : Event) (s : GameState) :
  48 <= w -> 13 <= h ->
  field_invariant h w s -> lasers_in_field h w s -> game_over s = false ->
  inside_window h w (update ev s).
Proof.
  intros Hw48 Hh13 Hf Hl Hgo.
  pose proof (kept_update _ (full_kept h w Hw48 Hh13) ev s (conj Hf Hl))
    as [Hf' [Hpl' Hal']].
  destruct Hf' as ((_ & Hw' & _) & (_ & _ & Hax' & _) & (Hpy' & Hay' & _)
                   & (_ & Hpx')).
  rewrite Hw' in Hpx'.
  destruct Hf as (Hwf & _ & (_ & _ & Habove) & _).
  specialize (Habove Hgo).
  (* rows of the aliens and of their lasers, section by section *)
  assert (Hlow : Forall (fun a => Alien.y a <= h - 2) (aliens (update ev s)) /\
                 Forall (fun l => Laser.y l <= h - 2)
                        (alien_lasers (update ev s))).
  { rewrite update_unfold.
    set (m := if march_due ev then advance_aliens s else s).
    assert (Hm : well_formed h w m /\
                 Forall (fun a => Alien.y a <= h - 2) (aliens m)).
    { subst m. destruct (march_due ev).
      - split; [now apply wf_march | now apply march_low_enough].
      - split; [exact Hwf|]. eapply Forall_impl; [exact Habove|].
        intros a Ha. simpl in Ha. lia. }
    set (a := if anim_due ev then animate_aliens m else m).
    assert (Ha : well_formed h w a /\
                 Forall (fun a => Alien.y a <= h - 2) (aliens a)).
    { subst a. destruct Hm as [Hm1 Hm2]. destruct (anim_due ev).
      - split; [now apply wf_anim|]. simpl. now rewrite Forall_fmap.
      - split; assumption. }
    set (f := aliens_fire ev a).
    assert (Hfi : height f = h /\
                  Forall (fun a => Alien.y a <= h - 2) (aliens f)).
    { subst f. destruct Ha as [(Hh & _) Ha2].
      destruct (aliens_fire_aliens ev a) as [-> ->]. split; assumption. }
    set (u := update_lasers f).
    assert (Hu : Forall (fun a => Alien.y a <= h - 2) (aliens u) /\
                 Forall (fun l => Laser.y l <= h - 2) (alien_lasers u)).
    { subst u. destruct Hfi as [Hh Hq]. unfold update_lasers. simpl.
      split; [exact Hq|]. rewrite Hh. apply update_alien_lasers_upper. }
    set (c := resolve_collisions u).
    assert (Hc : Forall (fun a => Alien.y a <= h - 2) (aliens c) /\
                 Forall (fun l => Laser.y l <= h - 2) (alien_lasers c)).
    { subst c. destruct Hu as [Hq Hu2].
      destruct (resolve_collisions_keeps u) as (_ & Sa & _ & _ & Eal & _).
      rewrite Eal. split; [|exact Hu2]. eapply Forall_of_sublist; eauto. }
    set (k := alien_lasers_hit c).
    assert (Hk : Forall (fun a => Alien.y a <= h - 2) (aliens k) /\
                 Forall (fun l => Laser.y l <= h - 2) (alien_lasers k))
      by exact Hc.
    destruct (aliens k) as [|b bs] eqn:Hb.
    - rewrite level_cleared_empty by exact Hb. cbn [aliens alien_lasers].
      split; [|constructor].
      eapply Forall_impl; [apply (above_wave h (width k) Hh13)|].
      intros x Hx. simpl in Hx. lia.
    - rewrite level_cleared_nonempty by (rewrite Hb; discriminate).
      rewrite Hb. exact Hk. }
  destruct Hlow as [Hq Hu].
  rewrite Forall_forall in Hax'. rewrite Forall_forall in Hay'.
  rewrite Forall_forall in Hq. rewrite Forall_forall in Hu.
  pose proof Hal' as Hal''. rewrite Forall_forall in Hal''.
  unfold inside_window.
  split; [split; assumption|]. split; [|split; [exact Hpl'|]].
  - apply Forall_forall. intros a Ha.
    specialize (Hax' a Ha). specialize (Hay' a Ha). specialize (Hq a Ha).
    simpl in *. lia.
  - apply Forall_forall. intros l Hl'.
    specialize (Hal'' l Hl'). specialize (Hu l Hl'). simpl in *. lia.
Qed.

Lemma main_loop_drawn (h w : Z) (evs : list Event) :
  48 <= w -> 13 <= h ->
  forall s : GameState,
    field_invariant h w s -> lasers_in_field h w s ->
    Forall (drawn_inside h w) (main_loop evs s).2.
Proof.
  intros Hw48 Hh13.
  induction evs as [|ev rest IH]; intros s Hf Hl; [constructor|].
  rewrite main_loop_cons. destruct (game_over s) eqn:Hgo; [constructor|].
  destruct (handle_input (key ev) s) as [s1|] eqn:Hin; [|constructor].
  destruct (full_kept h w Hw48 Hh13) as (Kin & _).
  destruct (Kin _ _ _ (conj Hf Hl) Hin) as [Hf1 Hl1].
  assert (Hgo1 : game_over s1 = false).
  { destruct (handle_input_keeps _ _ _ Hin)
      as (_ & _ & _ & _ & _ & _ & Eg & _). congruence. }
  pose proof (end_of_iteration h w ev s1 Hw48 Hh13 Hf1 Hl1 Hgo1) as Hins.
  destruct (kept_update _ (full_kept h w Hw48 Hh13) ev s1 (conj Hf1 Hl1))
    as [Hf2 Hl2].
  specialize (IH (update ev s1) Hf2 Hl2).
  destruct (main_loop rest (update ev s1)) as [[e s3] calls].
  cbn [snd] in *. constructor; assumption.
Qed.

(** X21. On a window at least 48 columns wide and 13 rows high, every
    frame that [play] draws has all its sprites strictly inside the
    border: the player on row [height - 2] in columns 1 to [width - 2],
    the aliens in those columns on rows 2 to [height - 2], the player's
    lasers on rows 2 to [height - 3] and the aliens' lasers on rows 3 to
    [height - 2]; and the end-of-game message fits in the window. *)
Theorem X21_drawn_inside_window (h w : Z) (evs : list Event) :
  48 <= w -> 13 <= h ->
  Forall (drawn_inside h w) (play h w evs).2.
Proof.
  intros Hw48 Hh13. unfold play.
  assert (Hf0 : field_invariant h w (GameState_init h w)).
  { unfold field_invariant. split_and!.
    - apply wf_init.
    - now apply in_field_init.
    - now apply above_init.
    - apply player_init. lia. }
  assert (Hl0 : lasers_in_field h w (GameState_init h w)).
  { unfold GameState_init. rewrite init_aliens_wave. split; constructor. }
  pose proof (main_loop_drawn h w evs Hw48 Hh13 _ Hf0 Hl0) as Hdrawn.
  destruct (main_loop_dims evs (GameState_init h w)) as [Hh Hw].
  destruct Hf0 as ((Hh0 & Hw0 & _) & _). rewrite Hh0 in Hh. rewrite Hw0 in Hw.
  destruct (main_loop evs (GameState_init h w)) as [[e s] frames].
  cbn [fst snd] in *.
  repeat (apply Forall_cons_2; [exact I|]).
  apply Forall_app. split; [exact Hdrawn|].
  assert (Hscreen : Forall (drawn_inside h w) (game_over_screen s)).
  { unfold game_over_screen. rewrite Hh, Hw.
    repeat (apply Forall_cons_2); try exact I; try apply Forall_nil_2.
    unfold drawn_inside. rewrite py_len_msg.
    pose proof (Z.div_mod h 2 ltac:(lia)).
    pose proof (Z.mod_pos_bound h 2 ltac:(lia)).
    pose proof (Z.div_mod (w - 33) 2 ltac:(lia)).
    pose proof (Z.mod_pos_bound (w - 33) 2 ltac:(lia)). lia. }
  destruct e; [exact Hscreen | exact Hscreen | constructor].
Qed.

Lemma X21_drawn_inside_window_witness :
  Forall (drawn_inside 14 48)
         (play 14 48 [mkEvent ord_space true true true 52;
                      mkEvent KEY_LEFT true false false 0;
                      mkEvent ord_q false false false 0]).2.
Proof.
  apply (X21_drawn_inside_window 14 48
           [mkEvent ord_space true true true 52;
            mkEvent KEY_LEFT true false false 0;
            mkEvent ord_q false false false 0]); lia.
Defined.

(** ** Levels *)

Lemma level_width_before_clearing (ev : Event) (s : GameState) :
  let k :=
    alien_lasers_hit (resolve_collisions (update_lasers
      (aliens_fire ev
         (if anim_due ev
          then animate_aliens (if march_due ev then advance_aliens s else s)
          else if march_due ev then advance_aliens s else s)))) in
  level k = level s /\ width k = width s.
Proof.
  set (m := if march_due ev then advance_aliens s else s).
  assert (Hm : level m = level s /\ width m = width s).
  { subst m. destruct (march_due ev); [|auto].
    rewrite advance_aliens_spec. now destruct (existsb _ _). }
  set (a := if anim_due ev then animate_aliens m else m).
  assert (Ha : level a = level s /\ width a = width s).
  { subst a. now destruct (anim_due ev). }
  set (f := aliens_fire ev a).
  assert (Hf : level f = level s /\ width f = width s).
  { subst f. unfold aliens_fire. destruct (bool_decide _); [exact Ha|].
    destruct (fire_roll ev); [|exact Ha]. now destruct (aliens a !! _). }
  set (u := update_lasers f).
  assert (Hu : level u = level s /\ width u = width s) by exact Hf.
  intros k. subst k. fold m. fold a. fold f. fold u.
  destruct (resolve_collisions_keeps u)
    as (_ & _ & _ & _ & _ & _ & _ & El & _ & _ & Ew).
  simpl. rewrite El, Ew. exact Hu.
Qed.

(** X22. An iteration leaves the level as it was or raises it by exactly
    one, and never changes the field width.  When it raises the level it
    ends with the full fresh wave of 55 for the field width and with no
    laser in flight on either side. *)
Theorem X22_level_step (ev : Event) (s : GameState) :
  (level (update ev s) = level s /\ width (update ev s) = width s) \/
  (level (update ev s) = level s + 1 /\
   width (update ev s) = width s /\
   aliens (update ev s) = wave (width s) /\
   length (aliens (update ev s)) = 55%nat /\
   player_lasers (update ev s) = [] /\
   alien_lasers (update ev s) = []).
Proof.
  rewrite update_unfold.
  destruct (level_width_before_clearing ev s) as [El Ew].
  set (k := alien_lasers_hit _) in *.
  destruct (aliens k) as [|a als] eqn:Ha.
  - right. rewrite level_cleared_empty by exact Ha.
    cbn [level width aliens player_lasers alien_lasers].
    rewrite El, Ew. split_and!; reflexivity.
  - left. rewrite level_cleared_nonempty by (rewrite Ha; discriminate).
    split; assumption.
Qed.

(** ** Score accounting *)

Lemma score_kept : kept score_accounts.
Proof.
  unfold kept, score_accounts. split_and!.
  - intros k s s' Hs Hin.
    destruct (handle_input_keeps k s s' Hin)
      as (Ea & _ & _ & _ & Es & El & _).
    now rewrite Ea, Es, El.
  - intros s Hs. rewrite advance_aliens_spec.
    destruct (existsb _ _); simpl; rewrite ?length_fmap; exact Hs.
  - intros s Hs. simpl. rewrite length_fmap. exact Hs.
  - intros ev s Hs. unfold aliens_fire. destruct (bool_decide _); [exact Hs|].
    destruct (fire_roll ev); [|exact Hs]. now destruct (aliens s !! _).
  - intros s Hs. exact Hs.
  - intros s Hs. unfold resolve_collisions.
    destruct (collide_loop_account (player_lasers s) (aliens s) (score s))
      as (k & _ & H2 & H3 & _).
    destruct (collide_loop (player_lasers s) (aliens s) (score s))
      as [[ls als] sc]. simpl in *. lia.
  - intros s Hs. exact Hs.
  - intros s Hs. destruct (aliens s) as [|a als] eqn:Ha.
    + rewrite level_cleared_empty by exact Ha.
      cbn [score level aliens length] in *. rewrite wave_length. lia.
    + rewrite level_cleared_nonempty by (rewrite Ha; discriminate).
      now rewrite Ha.
Qed.

(** X23. In every state of a session the score is 10 times the number of
    aliens shot so far: 55 for each wave cleared (the level minus one) plus
    the aliens missing from the 55 of the wave on the field. *)
Theorem X23_score_accounting (h w : Z) (evs : list Event) :
  Forall (fun s =>
            score s =
            10 * (55 * (level s - 1) +
                  (55 - Z.of_nat (length (aliens s)))))
         (session_states evs (GameState_init h w)) /\
  score (play h w evs).1.2 =
  10 * (55 * (level (play h w evs).1.2 - 1) +
        (55 - Z.of_nat (length (aliens (play h w evs).1.2)))).
Proof.
  assert (H : Forall score_accounts (session_states evs (GameState_init h w))).
  { apply kept_session; [exact score_kept|].
    unfold GameState_init, score_accounts. rewrite init_aliens_wave.
    unfold set_aliens. cbn [score level aliens app]. rewrite wave_length. lia. }
  split; [exact H|].
  rewrite Forall_forall in H.
  pose proof (main_loop_in_session evs (GameState_init h w)) as Hin.
  unfold play. destruct (main_loop evs (GameState_init h w)) as [[e s] frames].
  apply (H s Hin).
Qed.

(** ** Aliens on cells of their own *)

Lemma NoDup_cells_map (g : Alien.t -> Alien.t) (t : Z * Z -> Z * Z)
      (l : list Alien.t) :
  (forall a, cell (g a) = t (cell a)) ->
  (forall p q, t p = t q -> p = q) ->
  NoDup (cell <$> l) -> NoDup (cell <$> (g <$> l)).
Proof.
  intros Hg Ht Hl. rewrite <- list_fmap_compose.
  rewrite (list_fmap_ext (cell ∘ g) (t ∘ cell)) by (intros i a _; apply Hg).
  rewrite list_fmap_compose. apply NoDup_fmap_2_strong; [|exact Hl].
  intros p q _ _. apply Ht.
Qed.

Lemma NoDup_range (n : nat) : NoDup (range n).
Proof.
  unfold range. apply NoDup_fmap_2_strong; [|apply NoDup_seq].
  intros i j _ _. apply Nat2Z.inj.
Qed.

Lemma grid_rows (xm : Z) (rows cols : list Z) :
  Forall (fun a => exists r, r ∈ rows /\ Alien.y a = 2 + r * 2)
         (grid xm rows cols).
Proof. apply grid_Forall. intros r c Hr _. exists r. auto. Qed.

Lemma grid_NoDup (xm : Z) (cols : list Z) :
  NoDup cols -> forall rows, NoDup rows ->
  NoDup (cell <$> grid xm rows cols).
Proof.
  intros Hcols. unfold grid.
  induction 1 as [|r rows Hr Hrows IH]; simpl; [constructor|].
  rewrite fmap_app. apply NoDup_app. split_and!.
  - rewrite <- list_fmap_compose. apply NoDup_fmap_2_strong; [|exact Hcols].
    intros c c' _ _ E. unfold compose, cell in E. simpl in E.
    injection E. lia.
  - intros p Hp Hp'.
    apply list_elem_of_fmap in Hp as (a & -> & Ha).
    apply list_elem_of_fmap in Ha as (c & -> & _).
    apply list_elem_of_fmap in Hp' as (b & Hb & Hin).
    pose proof (grid_rows xm rows cols) as Hg. unfold grid in Hg.
    rewrite Forall_forall in Hg. destruct (Hg b Hin) as (r' & Hr' & Hy).
    unfold cell in Hb. simpl in Hb. injection Hb as _ Hy'.
    assert (r = r') by lia. subst r'. contradiction.
  - exact IH.
Qed.

Lemma wave_NoDup (w : Z) : NoDup (cell <$> wave w).
Proof. apply grid_NoDup; apply NoDup_range. Qed.

Lemma distinct_kept : kept distinct_cells.
Proof.
  unfold kept, distinct_cells. split_and!.
  - intros k s s' Hs Hin.
    destruct (handle_input_keeps k s s' Hin) as (Ea & _). now rewrite Ea.
  - intros s Hs. rewrite advance_aliens_spec.
    destruct (existsb _ _); simpl.
    + apply (NoDup_cells_map lowered (fun p => (p.1, p.2 + 1))).
      * reflexivity.
      * intros [p1 p2] [q1 q2] E. simpl in E. injection E as -> E. f_equal. lia.
      * apply (NoDup_cells_map (shifted (alien_dir s))
                 (fun p => (p.1 + alien_dir s, p.2))); [reflexivity | |exact Hs].
        intros [p1 p2] [q1 q2] E. simpl in E. injection E as E ->. f_equal. lia.
    + apply (NoDup_cells_map (shifted (alien_dir s))
               (fun p => (p.1 + alien_dir s, p.2))); [reflexivity | |exact Hs].
      intros [p1 p2] [q1 q2] E. simpl in E. injection E as E ->. f_equal. lia.
  - intros s Hs. simpl.
    apply (NoDup_cells_map Alien.animate (fun p => p)); auto.
  - intros ev s Hs. now destruct (aliens_fire_aliens ev s) as [-> _].
  - intros s Hs. exact Hs.
  - intros s Hs.
    destruct (resolve_collisions_keeps s) as (_ & Sa & _).
    eapply sublist_NoDup; [exact Hs|]. now apply fmap_sublist.
  - intros s Hs. exact Hs.
  - intros s Hs. destruct (aliens s) as [|a als] eqn:Ha.
    + rewrite level_cleared_empty by exact Ha. cbn [aliens]. apply wave_NoDup.
    + rewrite level_cleared_nonempty by (rewrite Ha; discriminate).
      now rewrite Ha.
Qed.

(** X24. In every state of a session no two aliens are on the same cell, so
    a player laser can coincide with at most one alien and the order of the
    alien list does not matter to which alien it removes. *)
Theorem X24_aliens_on_distinct_cells (h w : Z) (evs : list Event) :
  Forall (fun s => NoDup ((fun a => (Alien.x a, Alien.y a)) <$> aliens s))
         (session_states evs (GameState_init h w)) /\
  (forall (s : GameState) (laser : Laser.t) (i j : nat) (a b : Alien.t),
     NoDup ((fun a => (Alien.x a, Alien.y a)) <$> aliens s) ->
     aliens s !! i = Some a -> aliens s !! j = Some b ->
     hit laser a = true -> hit laser b = true -> i = j).
Proof.
  split.
  - apply (kept_session distinct_cells distinct_kept).
    unfold GameState_init, distinct_cells. rewrite init_aliens_wave.
    unfold set_aliens. cbn [aliens app]. apply wave_NoDup.
  - intros s laser i j a b Hnd Ha Hb Hha Hhb.
    rewrite NoDup_alt in Hnd. apply (Hnd i j (Alien.x a, Alien.y a)).
    + rewrite list_lookup_fmap, Ha. reflexivity.
    + rewrite list_lookup_fmap, Hb. simpl. unfold hit in Hha, Hhb.
      apply andb_true_iff in Hha, Hhb. do 2 f_equal; lia.
Qed.
